(** * trix server: vulnerability store, notifier and orchestrator

    A shallow embedding of [internal/server] (db.go, notifier.go and the
    server loop) together with the properties of the daemon's state store,
    severity filter, channel fan-out and poll cycle. *)

From stdpp Require Import gmap strings list fin_maps sorting.



(** Instants.  [time.Now()] is an input of every operation that reads the
    clock; an instant is an integer count of clock ticks. *)
Definition Time := Z.

(** Errors travel as values, as Go's [error] does; [None] is [nil]. *)
Inductive error :=
  | ErrDriver (msg : string)            (* database/sql driver or connection *)
  | ErrRequest (msg : string)           (* "request: %w" *)
  | ErrStatus (code : Z)                (* "status %d" *)
  | ErrScanner (msg : string).          (* scanner source fetch *)

(** ** db.go *)
Module DB.

(** [VulnerabilityState]: the two constants the code ever writes. *)
Inductive VulnerabilityState := StateOpen | StateFixed.

#[global] Instance VulnerabilityState_eq_dec : EqDecision VulnerabilityState.
Proof. solve_decision. Defined.

Record VulnerabilityRecord := {
  ID : string;
  CVE : string;
  Workload : string;
  Severity : string;
  Image : string;
  State : VulnerabilityState;
  FirstSeen : Time;
  LastSeen : Time;
  FixedAt : option Time
}.

(** The zero value of Go's [time.Time], left in fields that [rows.Scan]
    does not fill. *)
Definition zeroTime : Time := 0%Z.

(** *** The schema of [migrate] *)

Inductive ColType := TEXT | TIMESTAMPTZ.

Record Column := {
  col_name : string;
  col_type : ColType;
  col_primary_key : bool;
  col_not_null : bool;
  col_default : option string
}.

Inductive Statement :=
  | CreateTable (name : string) (cols : list Column)
  | CreateIndex (name table column : string).

Definition mkcol (n : string) (t : ColType) (pk nn : bool) (d : option string) : Column :=
  {| col_name := n; col_type := t; col_primary_key := pk;
     col_not_null := nn; col_default := d |}.

(** The DDL batch that [migrate] executes, statement by statement. *)
Definition schema : list Statement :=
  [ CreateTable "vulnerabilities"
      [ mkcol "id" TEXT true false None;
        mkcol "cve" TEXT false true None;
        mkcol "workload" TEXT false true None;
        mkcol "severity" TEXT false true None;
        mkcol "image" TEXT false false None;
        mkcol "state" TEXT false true (Some "'OPEN'");
        mkcol "first_seen" TIMESTAMPTZ false true (Some "NOW()");
        mkcol "last_seen" TIMESTAMPTZ false true (Some "NOW()");
        mkcol "fixed_at" TIMESTAMPTZ false false None ];
    CreateIndex "idx_vuln_state" "vulnerabilities" "state";
    CreateIndex "idx_vuln_severity" "vulnerabilities" "severity";
    CreateIndex "idx_vuln_cve" "vulnerabilities" "cve";
    CreateIndex "idx_vuln_workload" "vulnerabilities" "workload" ].

Definition tables (ddl : list Statement) : list string :=
  omap (λ s, match s with CreateTable n _ => Some n | _ => None end) ddl.

Definition columns (t : string) (ddl : list Statement) : list Column :=
  mjoin (omap (λ s, match s with
                    | CreateTable n cs => if String.eqb n t then Some cs else None
                    | _ => None
                    end) ddl).

Definition column_names (t : string) (ddl : list Statement) : list string :=
  col_name <$> columns t ddl.

Definition primary_key (t : string) (ddl : list Statement) : list string :=
  col_name <$> filter (λ c, col_primary_key c = true) (columns t ddl).

Definition indexed_columns (t : string) (ddl : list Statement) : list string :=
  omap (λ s, match s with
             | CreateIndex _ tb c => if String.eqb tb t then Some c else None
             | _ => None
             end) ddl.

(** *** The table *)

(** One row of [vulnerabilities], without its primary key [id]: the table
    is the finite map from [id] to the other columns. *)
Record Row := {
  cve : string;
  workload : string;
  severity : string;
  image : string;
  state : VulnerabilityState;
  first_seen : Time;
  last_seen : Time;
  fixed_at : option Time
}.

Abbreviation Table := (gmap string Row).

(** A statement either reaches the server and executes, or the driver
    reports an error and the table is as before. *)
Definition Fault := option error.

Definition exec (f : Fault) (stmt : Table → Table) (db : Table) : option error * Table :=
  match f with
  | Some e => (Some e, db)
  | None => (None, stmt db)
  end.

(** [INSERT INTO vulnerabilities (id, cve, workload, severity, image, state,
    first_seen, last_seen) VALUES ($1, $2, $3, $4, $5, $6, $7, $7)];
    [fixed_at] takes its default, NULL. *)
Definition insert_new (v : VulnerabilityRecord) (now : Time) (db : Table) : Table :=
  <[ID v := {| cve := CVE v; workload := Workload v; severity := Severity v;
               image := Image v; state := StateOpen;
               first_seen := now; last_seen := now; fixed_at := None |}]> db.

(** [SET state = $1, last_seen = $2, fixed_at = NULL, severity = $3, image = $4] *)
Definition set_reopened (v : VulnerabilityRecord) (now : Time) (r : Row) : Row :=
  {| cve := cve r; workload := workload r; severity := Severity v;
     image := Image v; state := StateOpen;
     first_seen := first_seen r; last_seen := now; fixed_at := None |}.

(** [SET last_seen = $1, severity = $2, image = $3] *)
Definition set_seen (v : VulnerabilityRecord) (now : Time) (r : Row) : Row :=
  {| cve := cve r; workload := workload r; severity := Severity v;
     image := Image v; state := state r;
     first_seen := first_seen r; last_seen := now; fixed_at := fixed_at r |}.

(** [UPDATE vulnerabilities SET ... WHERE id = $n] *)
Definition update_where_id (set : Row → Row) (id : string) (db : Table) : Table :=
  alter set id db.

(** [UpsertVulnerability]: [qf] is the outcome of the SELECT, [ef] of the
    INSERT or UPDATE that follows; a SELECT that finds no row is
    [sql.ErrNoRows]. *)
Definition UpsertVulnerability (qf ef : Fault) (now : Time)
    (v : VulnerabilityRecord) (db : Table) : (bool * option error) * Table :=
  match qf with
  | Some e => ((false, Some e), db)
  | None =>
    match state <$> db !! ID v with
    | None =>
        let '(err, db') := exec ef (insert_new v now) db in ((true, err), db')
    | Some existingState =>
        if decide (existingState = StateFixed) then
          let '(err, db') := exec ef (update_where_id (set_reopened v now) (ID v)) db in
          ((true, err), db')
        else
          let '(err, db') := exec ef (update_where_id (set_seen v now) (ID v)) db in
          ((false, err), db')
    end
  end.

(** [SET state = $1, fixed_at = $2] with [$1 = StateFixed]. *)
Definition set_fixed (now : Time) (r : Row) : Row :=
  {| cve := cve r; workload := workload r; severity := severity r;
     image := image r; state := StateFixed;
     first_seen := first_seen r; last_seen := last_seen r; fixed_at := Some now |}.

(** [id != ALL($4)] over the array of current ids. *)
Definition not_all (id : string) (currentIDs : list string) : bool :=
  forallb (λ x, negb (String.eqb id x)) currentIDs.

(** [UPDATE vulnerabilities SET state = $1, fixed_at = $2 WHERE cond]: every
    row that meets [cond] is rewritten, the others stay. *)
Definition update_where (cond : string → Row → bool) (set : Row → Row) (db : Table) : Table :=
  map_imap (λ id r, Some (if cond id r then set r else r)) db.

(** [RETURNING id, cve, workload, severity, image, first_seen], scanned into
    a record whose [State] and [FixedAt] the loop then sets; [LastSeen]
    keeps its zero value. *)
Definition scan_fixed (now : Time) (idr : string * Row) : VulnerabilityRecord :=
  {| ID := idr.1; CVE := cve idr.2; Workload := workload idr.2;
     Severity := severity idr.2; Image := image idr.2;
     State := StateFixed; FirstSeen := first_seen idr.2;
     LastSeen := zeroTime; FixedAt := Some now |}.

(** The rows an [UPDATE ... WHERE cond RETURNING ...] hands back, in the
    order the engine chooses (here: the map's enumeration). *)
Definition returning (cond : string → Row → bool) (db : Table) : list (string * Row) :=
  filter (λ idr, cond idr.1 idr.2 = true) (map_to_list db).

Definition update_returning (f : Fault) (cond : string → Row → bool) (now : Time)
    (db : Table) : (list VulnerabilityRecord * option error) * Table :=
  match f with
  | Some e => (([], Some e), db)
  | None => ((scan_fixed now <$> returning cond db, None),
             update_where cond (set_fixed now) db)
  end.

Definition is_open (r : Row) : bool := bool_decide (state r = StateOpen).

(** [WHERE state = $3] *)
Definition markAllFixed (f : Fault) (now : Time) (db : Table) :=
  update_returning f (λ _ r, is_open r) now db.

(** [WHERE state = $3 AND id != ALL($4)] *)
Definition MarkFixed (f : Fault) (now : Time) (currentIDs : list string) (db : Table) :=
  if decide (length currentIDs = 0) then markAllFixed f now db
  else update_returning f (λ id r, is_open r && not_all id currentIDs) now db.

(** The lifecycle invariant of a row and of the table. *)
Definition row_ok (r : Row) : Prop :=
  match state r with
  | StateFixed => is_Some (fixed_at r)
  | StateOpen => fixed_at r = None
  end.

Definition store_ok (db : Table) : Prop :=
  ∀ id r, db !! id = Some r → row_ok r.

(** The tables the store operations can produce, from the empty table that
    [migrate] creates. *)
Inductive reachable : Table → Prop :=
  | reach_empty : reachable ∅
  | reach_upsert qf ef now v db :
      reachable db → reachable (UpsertVulnerability qf ef now v db).2
  | reach_fixed f now ids db :
      reachable db → reachable (MarkFixed f now ids db).2.

(** A sample record and sample tables for concrete runs. *)
Definition sample (id c : string) : VulnerabilityRecord :=
  {| ID := id; CVE := c; Workload := "ns/deploy/a"; Severity := "CRITICAL";
     Image := "nginx:1.25"; State := StateOpen;
     FirstSeen := zeroTime; LastSeen := zeroTime; FixedAt := None |}.

Definition one_open : Table :=
  (UpsertVulnerability None None 10%Z (sample "f1" "CVE-1") ∅).2.

Definition one_fixed : Table :=
  (MarkFixed None 20%Z [] one_open).2.

(** *** The read queries *)

(** [SELECT ... FROM vulnerabilities WHERE state = $1]: the selected rows,
    in the engine's order. *)
Definition select_where_state (st : VulnerabilityState) (db : Table) : list (string * Row) :=
  filter (λ idr, state idr.2 = st) (map_to_list db).

(** All nine columns scanned into a record. *)
Definition scan_row (idr : string * Row) : VulnerabilityRecord :=
  {| ID := idr.1; CVE := cve idr.2; Workload := workload idr.2;
     Severity := severity idr.2; Image := image idr.2; State := state idr.2;
     FirstSeen := first_seen idr.2; LastSeen := last_seen idr.2;
     FixedAt := fixed_at idr.2 |}.

(** [CASE severity WHEN 'CRITICAL' THEN 1 WHEN 'HIGH' THEN 2 WHEN 'MEDIUM'
    THEN 3 WHEN 'LOW' THEN 4 ELSE 5 END] *)
Definition severity_case (s : string) : Z :=
  if String.eqb s "CRITICAL" then 1
  else if String.eqb s "HIGH" then 2
  else if String.eqb s "MEDIUM" then 3
  else if String.eqb s "LOW" then 4
  else 5.

(** [ORDER BY CASE ... END, first_seen DESC]: [a] may be listed before
    [b]. *)
Definition listed_before (a b : VulnerabilityRecord) : Prop :=
  (severity_case (Severity a) < severity_case (Severity b))%Z ∨
  (severity_case (Severity a) = severity_case (Severity b) ∧
   (FirstSeen b ≤ FirstSeen a)%Z).

#[global] Instance listed_before_dec : RelDecision listed_before.
Proof. intros a b. unfold listed_before. apply _. Defined.

(** [GetOpenVulnerabilities]: the open rows, ordered; rows the ORDER BY
    does not tell apart come in the order the sort leaves them. *)
Definition GetOpenVulnerabilities (f : Fault) (db : Table)
    : list VulnerabilityRecord * option error :=
  match f with
  | Some e => ([], Some e)
  | None =>
      (merge_sort listed_before (scan_row <$> select_where_state StateOpen db), None)
  end.

Record Stats := {
  TotalOpen : Z;
  TotalFixed : Z;
  BySeverity : gmap string Z
}.

(** [SELECT COUNT ... WHERE state = $1] *)
Definition count_where_state (st : VulnerabilityState) (db : Table) : Z :=
  Z.of_nat (length (select_where_state st db)).

(** [SELECT severity, COUNT ... WHERE state = $1 GROUP BY severity]: one
    row for each severity that occurs among the selected rows. *)
Definition group_by_severity (st : VulnerabilityState) (db : Table) : list (string * Z) :=
  let sevs := (λ idr, severity idr.2) <$> select_where_state st db in
  (λ s, (s, Z.of_nat (length (filter (λ x, x = s) sevs)))) <$> remove_dups sevs.

(** [GetStats]: three queries, [f1], [f2], [f3] their outcomes; the first
    error ends the call.  The loop stores each group at
    [stats.BySeverity[sev]]. *)
Definition GetStats (f1 f2 f3 : Fault) (db : Table) : option Stats * option error :=
  match f1 with
  | Some e => (None, Some e)
  | None =>
    match f2 with
    | Some e => (None, Some e)
    | None =>
      match f3 with
      | Some e => (None, Some e)
      | None =>
          (Some {| TotalOpen := count_where_state StateOpen db;
                   TotalFixed := count_where_state StateFixed db;
                   BySeverity :=
                     foldl (λ m sc, <[sc.1 := sc.2]> m) ∅
                           (group_by_severity StateOpen db) |},
           None)
      end
    end
  end.

(** A store operation with what it reads from outside, and a history of
    them applied in order. *)
Inductive Operation :=
  | DoUpsert (qf ef : Fault) (now : Time) (v : VulnerabilityRecord)
  | DoMarkFixed (f : Fault) (now : Time) (currentIDs : list string).

Definition perform (db : Table) (op : Operation) : Table :=
  match op with
  | DoUpsert qf ef now v => (UpsertVulnerability qf ef now v db).2
  | DoMarkFixed f now ids => (MarkFixed f now ids db).2
  end.

Definition history (ops : list Operation) (db : Table) : Table :=
  foldl perform db ops.

End DB.

(** ** notifier.go *)
Module Notifier.

(** The fields of [Config] that the notifier reads. *)
Record Config := {
  SlackWebhook : string;
  GenericWebhook : string;
  SaasEndpoint : string;
  SaasApiKey : string;
  ClusterName : string;
  MinSeverity : string
}.

(** [VulnerabilityEvent]; the field [Type] is spelled [Type_] here. *)
Record VulnerabilityEvent := {
  ID : string;
  Type_ : string;
  CVE : string;
  Workload : string;
  Severity : string;
  Image : string;
  FirstSeen : Time;
  FixedAt : option Time
}.

#[global] Instance VulnerabilityEvent_eq_dec : EqDecision VulnerabilityEvent.
Proof. solve_decision. Defined.

(** What a POST carries.  The text rendering of a Slack attachment is a
    function of the lists kept here and is not spelled out. *)
Inductive Payload :=
  | SlackMessage (newEvents fixedEvents : list VulnerabilityEvent)
  | SlackSummary (total : nat) (counts : gmap string Z)
  | WebhookEvents (events : list VulnerabilityEvent)
  | WebhookSummary (total : nat) (counts : gmap string Z)
  | SaasEvents (cluster : string) (events : list VulnerabilityEvent)
  | SaasSummary (cluster : string) (total : nat) (counts : gmap string Z).

Record Request := {
  url : string;
  authorization : option string;
  body : Payload
}.

(** What comes back from building and sending a request: an error
    (marshal, create request, transport) or a response status. *)
Inductive Response :=
  | Failed (msg : string)
  | Status (code : Z).

(** The notifier's effects: the requests posted so far, oldest first, and
    the logger's entries. *)
Record World := {
  posts : list Request;
  logs : list string
}.

Definition M (A : Type) : Type := World → A * World.

#[global] Instance M_ret : MRet M := λ A a w, (a, w).
#[global] Instance M_bind : MBind M :=
  λ A B f m w, let '(a, w') := m w in f a w'.

Definition log (msg : string) : M unit :=
  λ w, (tt, {| posts := posts w; logs := logs w ++ [msg] |}).

(** [strings.TrimSuffix(s, "/")] *)
Fixpoint TrimSuffix_slash (s : string) : string :=
  match s with
  | EmptyString => EmptyString
  | String c EmptyString => if Ascii.eqb c (Ascii.ascii_of_nat 47) then EmptyString else s
  | String c rest => String c (TrimSuffix_slash rest)
  end.

Definition filterByType (events : list VulnerabilityEvent) (eventType : string)
    : list VulnerabilityEvent :=
  filter (λ e, Type_ e = eventType) events.

(** [counts[e.Severity]++] over the events, from the empty map. *)
Definition countBySeverity (events : list VulnerabilityEvent) : gmap string Z :=
  foldl (λ counts e, <[Severity e := (default 0 (counts !! Severity e) + 1)%Z]> counts)
        ∅ events.

(** *** [strings.ToUpper] *)

Definition isLower (c : Ascii.ascii) : bool :=
  Nat.leb 97 (Ascii.nat_of_ascii c) && Nat.leb (Ascii.nat_of_ascii c) 122.

Definition upperByte (c : Ascii.ascii) : Ascii.ascii :=
  if isLower c then Ascii.ascii_of_nat (Ascii.nat_of_ascii c - 32) else c.

Fixpoint mapBytes (f : Ascii.ascii → Ascii.ascii) (s : string) : string :=
  match s with
  | EmptyString => EmptyString
  | String c rest => String (f c) (mapBytes f rest)
  end.

Fixpoint isASCII (s : string) : bool :=
  match s with
  | EmptyString => true
  | String c rest => Nat.ltb (Ascii.nat_of_ascii c) 128 && isASCII rest
  end.

Section WithEnvironment.

(** [strings.Map(unicode.ToUpper, s)], the path the library takes for a
    string that holds a byte outside ASCII; the Unicode tables stay a
    parameter. *)
Variable unicodeToUpper : string → string.

(** The outcome of the [k]-th request the process posts. *)
Variable Do : nat → Request → Response.

Variable config : Config.

Definition ToUpper (s : string) : string :=
  if isASCII s then mapBytes upperByte s else unicodeToUpper s.

Definition severityLevel (s : string) : Z :=
  let u := ToUpper s in
  if String.eqb u "CRITICAL" then 1
  else if String.eqb u "HIGH" then 2
  else if String.eqb u "MEDIUM" then 3
  else if String.eqb u "LOW" then 4
  else 5.

Definition filterBySeverity (events : list VulnerabilityEvent) : list VulnerabilityEvent :=
  let minLevel := severityLevel (MinSeverity config) in
  filter (λ e, (severityLevel (Severity e) ≤ minLevel)%Z) events.

(** [postJSON] and [postJSONWithAuth]: one request leaves (or fails to),
    and a status of 300 or more is an error. *)
Definition post (req : Request) (debug : string) : M (option error) :=
  λ w,
    let w' := {| posts := posts w ++ [req]; logs := logs w |} in
    match Do (length (posts w)) req with
    | Failed msg => (Some (ErrRequest msg), w')
    | Status code =>
        if (300 <=? code)%Z then (Some (ErrStatus code), w')
        else (None, (log debug w').2)
    end.

Definition postJSON (u : string) (payload : Payload) : M (option error) :=
  post {| url := u; authorization := None; body := payload |} "notification sent".

Definition postJSONWithAuth (u : string) (payload : Payload) : M (option error) :=
  post {| url := u;
          authorization := if decide (SaasApiKey config = "") then None
                           else Some (String.append "Bearer " (SaasApiKey config));
          body := payload |} "saas notification sent".

Definition sendSlack (events : list VulnerabilityEvent) : M (option error) :=
  let newEvents := filterByType events "NEW" in
  let fixedEvents := filterByType events "FIXED" in
  postJSON (SlackWebhook config) (SlackMessage newEvents fixedEvents).

Definition sendWebhook (events : list VulnerabilityEvent) : M (option error) :=
  postJSON (GenericWebhook config) (WebhookEvents events).

Definition saasURL : string :=
  String.append (TrimSuffix_slash (SaasEndpoint config)) "/api/v1/events".

Definition sendSaas (events : list VulnerabilityEvent) : M (option error) :=
  postJSONWithAuth saasURL (SaasEvents (ClusterName config) events).

Definition sendSlackSummary (events : list VulnerabilityEvent) : M (option error) :=
  postJSON (SlackWebhook config)
           (SlackSummary (length events) (countBySeverity events)).

Definition sendWebhookSummary (events : list VulnerabilityEvent) : M (option error) :=
  postJSON (GenericWebhook config)
           (WebhookSummary (length events) (countBySeverity events)).

Definition sendSaasSummary (events : list VulnerabilityEvent) : M (option error) :=
  postJSONWithAuth saasURL
           (SaasSummary (ClusterName config) (length events) (countBySeverity events)).

(** One of the three blocks of [Notify] and [NotifyInitialized]:
    [if target != "" { if err := send(...); err != nil { log; errs = append(errs, err) } }]. *)
Definition channel (target : string) (send : M (option error)) (failure : string)
    (errs : list error) : M (list error) :=
  if decide (target = "") then mret errs
  else
    err ← send;
    match err with
    | Some e => _ ← log failure; mret (errs ++ [e])
    | None => mret errs
    end.

(** [fmt.Errorf("notification errors: %v", errs)] when [len(errs) > 0]. *)
Definition combined (errs : list error) : option (list error) :=
  if decide (0 < length errs) then Some errs else None.

Definition NotifyInitialized (events : list VulnerabilityEvent) : M (option (list error)) :=
  errs ← channel (SlackWebhook config) (sendSlackSummary events)
                 "slack init notification failed" [];
  errs ← channel (GenericWebhook config) (sendWebhookSummary events)
                 "webhook init notification failed" errs;
  errs ← channel (SaasEndpoint config) (sendSaasSummary events)
                 "saas init notification failed" errs;
  mret (combined errs).

Definition Notify (events : list VulnerabilityEvent) : M (option (list error)) :=
  let filtered := filterBySeverity events in
  if decide (length filtered = 0) then mret None
  else
    errs ← channel (SlackWebhook config) (sendSlack filtered)
                   "slack notification failed" [];
    errs ← channel (GenericWebhook config) (sendWebhook filtered)
                   "webhook notification failed" errs;
    errs ← channel (SaasEndpoint config) (sendSaas filtered)
                   "saas notification failed" errs;
    mret (combined errs).

End WithEnvironment.

(** The channels a configuration enables, in the order they are tried. *)
Inductive Channel := Slack | Webhook | Saas.

Definition target (config : Config) (c : Channel) : string :=
  match c with
  | Slack => SlackWebhook config
  | Webhook => GenericWebhook config
  | Saas => SaasEndpoint config
  end.

Definition enabled (config : Config) : list Channel :=
  filter (λ c, target config c ≠ "") [Slack; Webhook; Saas].

(** The channel a posted request went to, read off its payload. *)
Definition channel_of (req : Request) : Channel :=
  match body req with
  | SlackMessage _ _ | SlackSummary _ _ => Slack
  | WebhookEvents _ | WebhookSummary _ _ => Webhook
  | SaasEvents _ _ | SaasSummary _ _ _ => Saas
  end.

(** Whether the [k]-th request, [req], was delivered. *)
Definition delivered (Do : nat → Request → Response) (k : nat) (req : Request) : bool :=
  match Do k req with
  | Failed _ => false
  | Status code => negb (300 <=? code)%Z
  end.

(** How many of the requests [reqs], posted from position [k] on, were
    not delivered. *)
Fixpoint failures (Do : nat → Request → Response) (k : nat) (reqs : list Request) : nat :=
  match reqs with
  | [] => 0
  | req :: rest => (if delivered Do k req then 0 else 1) + failures Do (S k) rest
  end.

(** A call that took the world from [w] to [res.2] and returned [res.1]
    fanned out: it posted one request to each enabled channel, in order,
    and it returned an error exactly when one of them was not delivered. *)
Definition fan_out (Do : nat → Request → Response) (config : Config)
    (w : World) (res : option (list error) * World) : Prop :=
  ∃ reqs : list Request,
    posts res.2 = posts w ++ reqs ∧
    channel_of <$> reqs = enabled config ∧
    (res.1 ≠ None ↔
     ∃ i req, reqs !! i = Some req ∧ delivered Do (length (posts w) + i) req = false).

(** Sample events and configurations for concrete runs. *)
Definition event (id sev : string) : VulnerabilityEvent :=
  {| ID := id; Type_ := "NEW"; CVE := "CVE-1"; Workload := "ns/deploy/a";
     Severity := sev; Image := "nginx:1.25"; FirstSeen := 10%Z; FixedAt := None |}.

Definition slack_only (minSeverity : string) : Config :=
  {| SlackWebhook := "https://hooks.example/T1"; GenericWebhook := "";
     SaasEndpoint := ""; SaasApiKey := ""; ClusterName := "dev";
     MinSeverity := minSeverity |}.

Definition quiet : World := {| posts := []; logs := [] |}.

(** A network on which every request is answered 200. *)
Definition all_ok : nat → Request → Response := λ _ _, Status 200.

(** *** The Slack rendering *)

(** [groupByWorkload]: [grouped[e.Workload] = append(grouped[e.Workload], e)]. *)
Definition groupByWorkload (events : list VulnerabilityEvent)
    : gmap string (list VulnerabilityEvent) :=
  foldl (λ grouped e, <[Workload e := default [] (grouped !! Workload e) ++ [e]]> grouped)
        ∅ events.

(** [counts[key]] of a Go map: zero for a key that is not there. *)
Definition count_of (counts : gmap string Z) (key : string) : Z :=
  default 0%Z (counts !! key).

(** The color of the attachment of [sendSlackSummary]: green, red when
    [counts["CRITICAL"] > 0], else orange for HIGH, else yellow for
    MEDIUM. *)
Definition summaryColor (events : list VulnerabilityEvent) : string :=
  let counts := countBySeverity events in
  if (0 <? count_of counts "CRITICAL")%Z then "#dc3545"
  else if (0 <? count_of counts "HIGH")%Z then "#fd7e14"
  else if (0 <? count_of counts "MEDIUM")%Z then "#ffc107"
  else "#36a64f".

(** The severity fields of [sendSlackSummary], title and count, in the
    order they are appended. *)
Definition summaryFields (events : list VulnerabilityEvent) : list (string * Z) :=
  let counts := countBySeverity events in
  let field (title key : string) :=
    if (0 <? count_of counts key)%Z then [(title, count_of counts key)] else [] in
  field "Critical" "CRITICAL" ++ field "High" "HIGH" ++
  field "Medium" "MEDIUM" ++ field "Low" "LOW".

(** The color of the "New Vulnerabilities" attachment of [sendSlack]:
    orange, red as soon as one new event has severity CRITICAL. *)
Definition newColor (newEvents : list VulnerabilityEvent) : string :=
  if existsb (λ e, String.eqb (Severity e) "CRITICAL") newEvents
  then "#dc3545" else "#fd7e14".

(** The events a payload itemizes. *)
Definition itemized (p : Payload) : list VulnerabilityEvent :=
  match p with
  | SlackMessage newEvents fixedEvents => newEvents ++ fixedEvents
  | WebhookEvents events => events
  | SaasEvents _ events => events
  | SlackSummary _ _ | WebhookSummary _ _ | SaasSummary _ _ _ => []
  end.

(** The total and the counts of a summary payload. *)
Definition summarized (p : Payload) : option (nat * gmap string Z) :=
  match p with
  | SlackSummary total counts => Some (total, counts)
  | WebhookSummary total counts => Some (total, counts)
  | SaasSummary _ total counts => Some (total, counts)
  | SlackMessage _ _ | WebhookEvents _ | SaasEvents _ _ => None
  end.

(** The requests a call added to the world. *)
Definition posted (w w' : World) : list Request := drop (length (posts w)) (posts w').

Definition with_min (minSeverity : string) (c : Config) : Config :=
  {| SlackWebhook := SlackWebhook c; GenericWebhook := GenericWebhook c;
     SaasEndpoint := SaasEndpoint c; SaasApiKey := SaasApiKey c;
     ClusterName := ClusterName c; MinSeverity := minSeverity |}.

(** A configuration with every channel set and an API key. *)
Definition all_channels (minSeverity : string) : Config :=
  {| SlackWebhook := "https://hooks.example/T1";
     GenericWebhook := "https://hooks.example/generic";
     SaasEndpoint := "https://saas.example/"; SaasApiKey := "k3y";
     ClusterName := "dev"; MinSeverity := minSeverity |}.

End Notifier.

(** ** The poll cycle and the server *)
Module Server.

Export Notifier(Config, SlackWebhook, GenericWebhook, SaasEndpoint,
                VulnerabilityEvent).

(** One finding as the Scanner Source lists it. *)
Record Observed := {
  o_cve : string;
  o_workload : string;
  o_severity : string;
  o_image : string
}.

(** The answer of the Scanner Source in one cycle. *)
Inductive Fetched :=
  | Listed (items : list Observed)
  | FetchFailed (e : error).

(** What one cycle reads from outside the process: the scanner's answer
    and the clock, [clock k] being the [k]-th reading of [time.Now()]. *)
Record Cycle := {
  fetch : Fetched;
  clock : nat → Time
}.

(** [SaasResult], as [handleSaasResult] reads it. *)
Record SaasResult := {
  SyncedIDs : list string;
  FailedIDs : list string;
  Err : option error
}.

(** The notifier methods the server invokes. *)
Inductive Call :=
  | CallNotifyInitialized (events : list VulnerabilityEvent)
  | CallNotify (events : list VulnerabilityEvent)
  | CallSendSaas (events : list VulnerabilityEvent).

(** The store methods executed, in order. *)
Inductive StoreOp :=
  | OpUpsert (id : string)
  | OpMarkFixed (currentIDs : list string)
  | OpGetUnsynced
  | OpMarkSaasSynced (ids : list string).

(** Modelled from the spec: [Config.HasNotifications] (config.go is not
    among the sources): the notifier delivers to each enabled channel, so
    there are notifications when at least one channel is configured. *)
Definition HasNotifications (c : Config) : bool :=
  bool_decide (SlackWebhook c ≠ "" ∨ GenericWebhook c ≠ "" ∨ SaasEndpoint c ≠ "").

(** [http.StatusOK], [http.StatusServiceUnavailable], [http.StatusNotFound] *)
Definition StatusOK : Z := 200.
Definition StatusServiceUnavailable : Z := 503.
Definition StatusNotFound : Z := 404.

(** The mux of [runHealthServer]: the status written for a request path,
    given what [s.ready.Load()] returns; a path with no handler gets the
    mux's 404. *)
Definition serve (ready : bool) (path : string) : Z :=
  if String.eqb path "/healthz" then StatusOK
  else if String.eqb path "/readyz" then
    (if ready then StatusOK else StatusServiceUnavailable)
  else StatusNotFound.

Section WithCollaborators.

(** The fingerprint of a (cve, workload) pair; its definition is with the
    poller. *)
Variable fingerprint : string → string → string.

(** Delivery tracking.  The store of db.go has no column or method for
    it; its state and the two methods the server calls are parameters. *)
Variable Tracking : Type.
Variable GetUnsyncedVulnerabilities :
  DB.Table → Tracking → list DB.VulnerabilityRecord * option error.
Variable MarkSaasSynced : list string → Tracking → option error * Tracking.

(** The result, a [*SaasResult], of the [k]-th notifier call of the
    process. *)
Variable notifier : nat → Call → option SaasResult.

Variable config : Config.

(** Everything a cycle can change outside the [Server] struct. *)
Record World := {
  table : DB.Table;
  tracking : Tracking;
  ops : list StoreOp;
  calls : list Call;
  logs : list string
}.

Definition with_table (tb : DB.Table) (w : World) : World :=
  {| table := tb; tracking := tracking w; ops := ops w; calls := calls w; logs := logs w |}.
Definition with_tracking (tr : Tracking) (w : World) : World :=
  {| table := table w; tracking := tr; ops := ops w; calls := calls w; logs := logs w |}.
Definition add_op (o : StoreOp) (w : World) : World :=
  {| table := table w; tracking := tracking w; ops := ops w ++ [o];
     calls := calls w; logs := logs w |}.
Definition add_call (c : Call) (w : World) : World :=
  {| table := table w; tracking := tracking w; ops := ops w;
     calls := calls w ++ [c]; logs := logs w |}.
Definition add_log (msg : string) (w : World) : World :=
  {| table := table w; tracking := tracking w; ops := ops w;
     calls := calls w; logs := logs w ++ [msg] |}.

(** *** The poller *)

(** Modelled from the spec: the candidate record of an observed item
    (poller.go is not among the sources), with its computed fingerprint;
    [Upsert] reads its id, cve, workload, severity and image only. *)
Definition candidate (o : Observed) : DB.VulnerabilityRecord :=
  {| DB.ID := fingerprint (o_cve o) (o_workload o);
     DB.CVE := o_cve o; DB.Workload := o_workload o;
     DB.Severity := o_severity o; DB.Image := o_image o;
     DB.State := DB.StateOpen;
     DB.FirstSeen := DB.zeroTime; DB.LastSeen := DB.zeroTime;
     DB.FixedAt := None |}.

(** Modelled from the spec: the [NEW] and [FIXED] events of the poller
    (poller.go is not among the sources); an event is a projection of the
    record it summarizes. *)
Definition newEvent (id : string) (r : DB.Row) : VulnerabilityEvent :=
  {| Notifier.ID := id; Notifier.Type_ := "NEW";
     Notifier.CVE := DB.cve r; Notifier.Workload := DB.workload r;
     Notifier.Severity := DB.severity r; Notifier.Image := DB.image r;
     Notifier.FirstSeen := DB.first_seen r; Notifier.FixedAt := DB.fixed_at r |}.

Definition fixedEvent (v : DB.VulnerabilityRecord) : VulnerabilityEvent :=
  {| Notifier.ID := DB.ID v; Notifier.Type_ := "FIXED";
     Notifier.CVE := DB.CVE v; Notifier.Workload := DB.Workload v;
     Notifier.Severity := DB.Severity v; Notifier.Image := DB.Image v;
     Notifier.FirstSeen := DB.FirstSeen v; Notifier.FixedAt := DB.FixedAt v |}.

(** Modelled from the spec: step 2 of the poller's cycle (poller.go is
    not among the sources): [Upsert] each candidate, a [NEW] event for each
    one that is new.  The [k]-th candidate reads the clock's [k]-th
    value. *)
Fixpoint upsertEach (clk : nat → Time) (k : nat) (cands : list DB.VulnerabilityRecord)
    (w : World) : list VulnerabilityEvent * World :=
  match cands with
  | [] => ([], w)
  | v :: rest =>
      let '((isNew, _), tb) :=
        DB.UpsertVulnerability None None (clk k) v (table w) in
      let w1 := add_op (OpUpsert (DB.ID v)) (with_table tb w) in
      let '(events, w2) := upsertEach clk (S k) rest w1 in
      ((if isNew then option_list (newEvent (DB.ID v) <$> tb !! DB.ID v) else [])
         ++ events, w2)
  end.

(** Modelled from the spec: [Poller.Poll] (poller.go is not among the
    sources), the four steps and the failure policy of the Diff Engine:
    fetch the observed set; [Upsert] every candidate; [MarkFixed] with the
    fingerprints seen; return the new events, then the fixed ones.  A
    failed fetch returns the error before any store operation.  The store
    statements of a cycle run on a healthy connection. *)
Definition Poll (cy : Cycle) (w : World) : (list VulnerabilityEvent * option error) * World :=
  match fetch cy with
  | FetchFailed e => (([], Some e), w)
  | Listed items =>
      let cands := candidate <$> items in
      let '(newEvents, w1) := upsertEach (clock cy) 0 cands w in
      let ids := DB.ID <$> cands in
      let '((fixed, _), tb) :=
        DB.MarkFixed None (clock cy (length cands)) ids (table w1) in
      let w2 := add_op (OpMarkFixed ids) (with_table tb w1) in
      ((newEvents ++ (fixedEvent <$> fixed), None), w2)
  end.

(** *** server.go *)

(** The fields of [Server] that change: [ready] (an [atomic.Bool]) and
    [firstPoll]; [s.db] and what the notifier and the logger did are in
    [world]. *)
Record State := {
  ready : bool;
  firstPoll : bool;
  world : World
}.

(** [New]: [firstPoll: true], [ready] at its zero value. *)
Definition New (w : World) : State :=
  {| ready := false; firstPoll := true; world := w |}.

Definition invoke (c : Call) (w : World) : option SaasResult * World :=
  (notifier (length (calls w)) c, add_call c w).

Definition handleSaasResult (result : option SaasResult) (w : World) : World :=
  match result with
  | None => w
  | Some res =>
      let w1 :=
        if decide (0 < length (SyncedIDs res)) then
          let '(err, tr) := MarkSaasSynced (SyncedIDs res) (tracking w) in
          let w' := add_op (OpMarkSaasSynced (SyncedIDs res)) (with_tracking tr w) in
          match err with
          | Some _ => add_log "failed to mark events as synced" w'
          | None => w'
          end
        else w in
      match Err res with
      | Some _ => add_log "saas sync had failures" w1
      | None =>
          if decide (0 < length (SyncedIDs res))
          then add_log "saas sync complete" w1 else w1
      end
  end.

Definition recordToEvent (v : DB.VulnerabilityRecord) : VulnerabilityEvent :=
  {| Notifier.ID := DB.ID v;
     Notifier.Type_ := if decide (DB.State v = DB.StateFixed) then "FIXED" else "NEW";
     Notifier.CVE := DB.CVE v; Notifier.Workload := DB.Workload v;
     Notifier.Severity := DB.Severity v; Notifier.Image := DB.Image v;
     Notifier.FirstSeen := DB.FirstSeen v; Notifier.FixedAt := DB.FixedAt v |}.

Definition retrySaasSync (w : World) : World :=
  let '(unsynced, err) := GetUnsyncedVulnerabilities (table w) (tracking w) in
  let w0 := add_op OpGetUnsynced w in
  match err with
  | Some _ => add_log "failed to get unsynced vulnerabilities" w0
  | None =>
      if decide (length unsynced = 0) then w0
      else
        let w1 := add_log "retrying unsynced events" w0 in
        let '(result, w2) := invoke (CallSendSaas (recordToEvent <$> unsynced)) w1 in
        handleSaasResult result w2
  end.

(** [Server.poll], from the point where [s.poller.Poll(ctx)] has returned
    [events] and [err] and left the world [w]. *)
Definition polled (events : list VulnerabilityEvent) (err : option error) (w : World)
    (s : State) : State :=
  match err with
  | Some _ =>
      {| ready := ready s; firstPoll := firstPoll s; world := add_log "poll failed" w |}
  | None =>
      if negb (HasNotifications config) then
        {| ready := ready s; firstPoll := firstPoll s; world := w |}
      else
        let w1 := if decide (SaasEndpoint config = "") then w else retrySaasSync w in
        if firstPoll s then
          let w2 :=
            if decide (0 < length events) then
              let '(result, w') := invoke (CallNotifyInitialized events) w1 in
              handleSaasResult result w'
            else add_log "resumed monitoring, database has existing data" w1 in
          {| ready := ready s; firstPoll := false; world := w2 |}
        else
          let w2 :=
            if decide (0 < length events) then
              let '(result, w') := invoke (CallNotify events) w1 in
              handleSaasResult result w'
            else w1 in
          {| ready := ready s; firstPoll := firstPoll s; world := w2 |}
  end.

(** [Server.poll] *)
Definition poll (cy : Cycle) (s : State) : State :=
  let '((events, err), w) := Poll cy (world s) in
  polled events err w s.

(** *** The two tasks of [Run] *)

(** What an observer of the daemon sees, in order: a health request
    answered, or a poll cycle of the loop finished ([failed] when [Poll]
    returned an error). *)
Inductive Event :=
  | Served (path : string) (code : Z)
  | CycleDone (failed : bool).

Definition cycle_failed (cy : Cycle) : bool :=
  match fetch cy with
  | FetchFailed _ => true
  | Listed _ => false
  end.

(** Where [runPollLoop] stands: before the initial poll, in the ticker
    loop, or returned on [ctx.Done()]. *)
Inductive PC := Initial | Ticking | Returned.

Record Daemon := {
  server : State;
  pc : PC;
  trace : list Event
}.

Definition start (w : World) : Daemon :=
  {| server := New w; pc := Initial; trace := [] |}.

Definition store_ready (s : State) : State :=
  {| ready := true; firstPoll := firstPoll s; world := world s |}.

(** The interleavings of the health handlers with the poll loop.  The
    handlers share only [ready] with the loop, and only read it, so the
    initial [s.poll(ctx)] and the [s.ready.Store(true)] after it are one
    step of the loop for them; [fine_step] below keeps the two apart. *)
Inductive step : Daemon → Daemon → Prop :=
  | step_request d path :
      step d {| server := server d; pc := pc d;
                trace := trace d ++ [Served path (serve (ready (server d)) path)] |}
  | step_initial d cy :
      pc d = Initial →
      step d {| server := store_ready (poll cy (server d)); pc := Ticking;
                trace := trace d ++ [CycleDone (cycle_failed cy)] |}
  | step_tick d cy :
      pc d = Ticking →
      step d {| server := poll cy (server d); pc := Ticking;
                trace := trace d ++ [CycleDone (cycle_failed cy)] |}
  | step_done d :
      pc d = Ticking →
      step d {| server := server d; pc := Returned; trace := trace d |}.

Definition is_cycle (e : Event) : bool :=
  match e with
  | CycleDone _ => true
  | Served _ _ => false
  end.

(** [runPollLoop] statement by statement: the line the loop is at. *)
Inductive Line := AtInitialPoll | AtStore | AtSelect | AtReturn.

Record Fine := {
  f_server : State;
  line : Line;
  answered : list (string * Z)
}.

Definition fine_start (w : World) : Fine :=
  {| f_server := New w; line := AtInitialPoll; answered := [] |}.

(** The interleavings with [s.poll(ctx)] and [s.ready.Store(true)] as two
    steps: a request can be answered between them. *)
Inductive fine_step : Fine → Fine → Prop :=
  | fine_request f path :
      fine_step f {| f_server := f_server f; line := line f;
                     answered := answered f ++ [(path, serve (ready (f_server f)) path)] |}
  | fine_initial f cy :
      line f = AtInitialPoll →
      fine_step f {| f_server := poll cy (f_server f); line := AtStore;
                     answered := answered f |}
  | fine_store f :
      line f = AtStore →
      fine_step f {| f_server := store_ready (f_server f); line := AtSelect;
                     answered := answered f |}
  | fine_tick f cy :
      line f = AtSelect →
      fine_step f {| f_server := poll cy (f_server f); line := AtSelect;
                     answered := answered f |}
  | fine_done f :
      line f = AtSelect →
      fine_step f {| f_server := f_server f; line := AtReturn; answered := answered f |}.

(** The health answers in a trace, in order. *)
Definition answers (tr : list Event) : list (string * Z) :=
  omap (λ e, match e with Served path code => Some (path, code) | CycleDone _ => None end) tr.

(** A run of [step] that stands for a run of [fine_step]: the same answers
    to the same requests; the same server, except that a loop that has
    polled but not yet stored the flag is matched before its poll. *)
Definition stands_for (d : Daemon) (f : Fine) : Prop :=
  answers (trace d) = answered f ∧
  match line f with
  | AtInitialPoll => pc d = Initial ∧ server d = f_server f
  | AtStore => pc d = Initial ∧ ∃ cy, f_server f = poll cy (server d)
  | AtSelect => pc d = Ticking ∧ server d = f_server f
  | AtReturn => pc d = Returned ∧ server d = f_server f
  end.

(** The invariant of the daemon's runs: [ready] tells whether a cycle of
    the loop has finished, the loop is past its initial poll only then,
    and every health request was answered from the flag as it stood. *)
Definition run_ok (d : Daemon) : Prop :=
  ready (server d) = existsb is_cycle (trace d) ∧
  (pc d ≠ Initial → existsb is_cycle (trace d) = true) ∧
  ∀ pre path code post,
    trace d = pre ++ Served path code :: post →
    code = serve (existsb is_cycle pre) path.

End WithCollaborators.

Arguments table {Tracking} _.
Arguments tracking {Tracking} _.
Arguments ops {Tracking} _.
Arguments calls {Tracking} _.
Arguments logs {Tracking} _.
Arguments ready {Tracking} _.
Arguments firstPoll {Tracking} _.
Arguments world {Tracking} _.
Arguments server {Tracking} _.
Arguments pc {Tracking} _.
Arguments trace {Tracking} _.
Arguments f_server {Tracking} _.
Arguments line {Tracking} _.
Arguments answered {Tracking} _.

(** A restart: the store already holds one open record, nothing has been
    executed or sent yet. *)
Definition restarted : World unit :=
  {| table := DB.one_open; tracking := tt; ops := []; calls := []; logs := [] |}.

(** A fresh install: the empty store. *)
Definition fresh : World unit :=
  {| table := ∅; tracking := tt; ops := []; calls := []; logs := [] |}.

(** A cycle in which the scanner lists nothing, and one in which it cannot
    be reached. *)
Definition nothing_found : Cycle :=
  {| fetch := Listed []; clock := λ _, 20%Z |}.

Definition outage : Cycle :=
  {| fetch := FetchFailed (ErrScanner "connection refused"); clock := λ _, 20%Z |}.

(** Collaborators for concrete runs: no unsynced records, tracking that
    accepts everything, a notifier that returns a nil result. *)
Definition no_unsynced : DB.Table → unit → list DB.VulnerabilityRecord * option error :=
  λ _ _, ([], None).
Definition mark_ok : list string → unit → option error * unit := λ _ _, (None, tt).
Definition nil_result : nat → Call → option SaasResult := λ _ _, None.
Definition join_fingerprint : string → string → string :=
  λ c wl, String.append c (String.append "|" wl).

(** A cycle in which the scanner lists one finding. *)
Definition found (c : string) : Cycle :=
  {| fetch := Listed [{| o_cve := c; o_workload := "ns/deploy/a";
                         o_severity := "CRITICAL"; o_image := "nginx:1.25" |}];
     clock := λ _, 20%Z |}.


(** *** Cycles with any poller *)

Definition is_initialized (c : Call) : bool :=
  match c with
  | CallNotifyInitialized _ => true
  | CallNotify _ | CallSendSaas _ => false
  end.

Definition is_notify (c : Call) : bool :=
  match c with
  | CallNotify _ => true
  | CallNotifyInitialized _ | CallSendSaas _ => false
  end.

(** How often [NotifyInitialized] and [Notify] occur among calls. *)
Definition initialized_calls (cs : list Call) : nat :=
  length (filter (λ c, is_initialized c = true) cs).

Definition notify_calls (cs : list Call) : nat :=
  length (filter (λ c, is_notify c = true) cs).

(** The latch of [firstPoll]: while it is set neither notification has
    been sent, and once it is cleared the summary has been sent at most
    once. *)
Definition latched {Tracking : Type} (s : State Tracking) : Prop :=
  initialized_calls (calls (world s)) ≤ (if firstPoll s then 0 else 1) ∧
  (firstPoll s = true → notify_calls (calls (world s)) = 0).

Section AnyPoller.

Variable Tracking : Type.
Variable GetUnsyncedVulnerabilities :
  DB.Table → Tracking → list DB.VulnerabilityRecord * option error.
Variable MarkSaasSynced : list string → Tracking → option error * Tracking.
Variable notifier : nat → Call → option SaasResult.
Variable config : Config.

(** [s.poller.Poll(ctx)], whatever the poller does: what it returns and
    the world it leaves. *)
Variable poller : Cycle → World Tracking →
                  (list VulnerabilityEvent * option error) * World Tracking.

(** [Server.poll] over that poller. *)
Definition pollWith (cy : Cycle) (s : State Tracking) : State Tracking :=
  let '((events, err), w) := poller cy (world s) in
  polled Tracking GetUnsyncedVulnerabilities MarkSaasSynced notifier config events err w s.

(** The calls of [s.poll(ctx)] that [runPollLoop] makes, one after the
    other: the initial poll, then one for each tick. *)
Definition cyclesWith (cys : list Cycle) (s : State Tracking) : State Tracking :=
  foldl (λ s cy, pollWith cy s) s cys.

End AnyPoller.

End Server.

(** ** Facts about db.go *)
Module DBFacts.
Import DB.

Lemma not_all_spec (id : string) (ids : list string) :
  not_all id ids = true ↔ id ∉ ids.
Proof.
  unfold not_all. induction ids as [|x ids IH]; simpl.
  - split; [intros _; apply not_elem_of_nil | done].
  - rewrite andb_true_iff, IH, not_elem_of_cons, negb_true_iff.
    destruct (String.eqb_spec id x) as [->|Hne]; simpl; split;
      intros [H1 H2]; try done; by split.
Qed.

Lemma is_open_spec (r : Row) : is_open r = true ↔ state r = StateOpen.
Proof. unfold is_open. apply bool_decide_eq_true. Qed.

Lemma lookup_update_where cond set (db : Table) id :
  update_where cond set db !! id = (λ r, if cond id r then set r else r) <$> db !! id.
Proof.
  unfold update_where. rewrite map_lookup_imap.
  by destruct (db !! id).
Qed.

Lemma elem_of_returning cond (db : Table) id r :
  (id, r) ∈ returning cond db ↔ db !! id = Some r ∧ cond id r = true.
Proof.
  unfold returning. rewrite list_elem_of_filter, elem_of_map_to_list. simpl.
  split; intros [? ?]; by split.
Qed.

Lemma NoDup_returning_ids cond (db : Table) : NoDup ((returning cond db).*1).
Proof.
  unfold returning.
  assert (H : NoDup ((map_to_list db).*1)) by apply NoDup_fst_map_to_list.
  revert H. generalize (map_to_list db). intros l.
  induction l as [|[i r] l IH]; simpl; [done|].
  rewrite NoDup_cons. intros [Hi Hl].
  rewrite filter_cons. simpl. destruct (decide (cond i r = true)); simpl; [|by auto].
  rewrite NoDup_cons. split; [|by auto].
  intros Hin. apply Hi.
  apply list_elem_of_fmap in Hin as [[j q] [-> Hq]].
  apply list_elem_of_filter in Hq as [_ Hq].
  apply list_elem_of_fmap. by exists (j, q).
Qed.

Lemma lookup_update_where_id set id (db : Table) j :
  update_where_id set id db !! j = if decide (id = j) then set <$> db !! j else db !! j.
Proof.
  unfold update_where_id. rewrite lookup_alter.
  by destruct (decide (id = j)) as [->|].
Qed.

(** A statement that the driver fails leaves the table as it was. *)
Lemma UpsertVulnerability_fault qf ef now v (db : Table) :
  (UpsertVulnerability qf ef now v db).1.2 ≠ None →
  (UpsertVulnerability qf ef now v db).2 = db.
Proof.
  unfold UpsertVulnerability.
  destruct qf as [e|]; [done|].
  destruct (state <$> db !! ID v) as [st|]; [destruct (decide _)|];
    destruct ef; simpl; done.
Qed.

Lemma MarkFixed_fault e now ids (db : Table) :
  MarkFixed (Some e) now ids db = (([], Some e), db).
Proof. unfold MarkFixed, markAllFixed. by destruct (decide _). Qed.

(** On a healthy connection [MarkFixed] is one UPDATE whose condition is
    "open and not among the current ids", also when the list is empty. *)
Lemma MarkFixed_lookup now ids (db : Table) id :
  (MarkFixed None now ids db).2 !! id =
  (λ r, if is_open r && not_all id ids then set_fixed now r else r) <$> db !! id.
Proof.
  unfold MarkFixed, markAllFixed.
  destruct (decide _) as [Hlen|Hlen]; simpl; rewrite lookup_update_where; [|done].
  apply nil_length_inv in Hlen as ->. simpl.
  destruct (db !! id) as [r|]; simpl; [|done]. by rewrite andb_true_r.
Qed.

Lemma MarkFixed_returned now ids (db : Table) :
  (MarkFixed None now ids db).1.1 =
  scan_fixed now <$> returning (λ id r, is_open r && not_all id ids) db.
Proof.
  unfold MarkFixed, markAllFixed.
  destruct (decide _) as [Hlen|Hlen]; simpl; [|done].
  apply nil_length_inv in Hlen as ->. f_equal.
  unfold returning. apply list_filter_iff.
  intros [id r]. simpl. by rewrite andb_true_r.
Qed.

Lemma row_ok_set_fixed now r : row_ok (set_fixed now r).
Proof. unfold row_ok. simpl. by eexists. Qed.

Lemma store_ok_upsert qf ef now v (db : Table) :
  store_ok db → store_ok (UpsertVulnerability qf ef now v db).2.
Proof.
  intros Hok. unfold UpsertVulnerability.
  destruct qf as [e|]; [done|].
  destruct (db !! ID v) as [r0|] eqn:Hv; simpl.
  - destruct (decide (state r0 = StateFixed)) as [Hst|Hst];
      destruct ef as [e|]; simpl; try done;
      intros id r; rewrite lookup_update_where_id;
      (destruct (decide (ID v = id)) as [<-|]; [|by apply Hok]);
      rewrite Hv; simpl; intros [= <-]; [done|].
    specialize (Hok _ _ Hv). unfold row_ok in *. simpl.
    by destruct (state r0).
  - destruct ef as [e|]; simpl; [done|].
    intros id r. unfold insert_new. rewrite lookup_insert.
    destruct (decide (ID v = id)); [by intros [= <-] | by apply Hok].
Qed.

Lemma store_ok_fixed f now ids (db : Table) :
  store_ok db → store_ok (MarkFixed f now ids db).2.
Proof.
  intros Hok. destruct f as [e|]; [by rewrite MarkFixed_fault|].
  intros id r. rewrite MarkFixed_lookup.
  destruct (db !! id) as [r0|] eqn:Hid; simpl; [|done].
  intros [= <-]. destruct (is_open r0 && not_all id ids).
  - apply row_ok_set_fixed.
  - by apply (Hok id).
Qed.

(** C3.  [UpsertVulnerability] on a healthy connection follows three
    paths by what the table holds under the record's id: no row - a row is
    inserted with state OPEN and first_seen = last_seen = now, and the
    result is isNew = true; a FIXED row - it becomes OPEN with fixed_at
    NULL and severity, image and last_seen refreshed, isNew = true; an OPEN
    row - only severity, image and last_seen are refreshed, isNew = false.
    No error is returned and no other row changes. *)
Theorem UpsertVulnerability_contract (now : Time) (v : VulnerabilityRecord) (db : Table) :
  let res := UpsertVulnerability None None now v db in
  res.1.2 = None ∧
  (∀ id, id ≠ ID v → res.2 !! id = db !! id) ∧
  match db !! ID v with
  | None =>
      res.1.1 = true ∧
      res.2 !! ID v =
        Some {| cve := CVE v; workload := Workload v; severity := Severity v;
                image := Image v; state := StateOpen;
                first_seen := now; last_seen := now; fixed_at := None |}
  | Some r =>
      match state r with
      | StateFixed =>
          res.1.1 = true ∧
          res.2 !! ID v =
            Some {| cve := cve r; workload := workload r; severity := Severity v;
                    image := Image v; state := StateOpen;
                    first_seen := first_seen r; last_seen := now; fixed_at := None |}
      | StateOpen =>
          res.1.1 = false ∧
          res.2 !! ID v =
            Some {| cve := cve r; workload := workload r; severity := Severity v;
                    image := Image v; state := StateOpen;
                    first_seen := first_seen r; last_seen := now;
                    fixed_at := fixed_at r |}
      end
  end.
Proof.
  unfold UpsertVulnerability.
  destruct (db !! ID v) as [r|] eqn:Hv; simpl.
  - destruct (state r) eqn:Hst; simpl.
    + destruct (decide (StateOpen = StateFixed)) as [?|_]; [done|]. simpl.
      split; [done|]. split.
      * intros id Hne. rewrite lookup_update_where_id. by rewrite decide_False.
      * split; [done|]. rewrite lookup_update_where_id, decide_True, Hv by done.
        simpl. unfold set_seen. by rewrite Hst.
    + destruct (decide (StateFixed = StateFixed)) as [_|?]; [|done]. simpl.
      split; [done|]. split.
      * intros id Hne. rewrite lookup_update_where_id. by rewrite decide_False.
      * split; [done|]. by rewrite lookup_update_where_id, decide_True, Hv.
  - split; [done|]. unfold insert_new. split.
    + intros id Hne. by rewrite lookup_insert_ne.
    + split; [done|]. by rewrite lookup_insert_eq.
Qed.

(** C4.  [MarkFixed] on a healthy connection: the rows that are OPEN and
    whose id is not among the current ids become FIXED with
    fixed_at = now, every other row stays as it is, and the records
    returned are those rows, once each.  In particular a row whose id is
    among the current ids is not touched, and with no current ids every
    OPEN row becomes FIXED. *)
Theorem MarkFixed_contract (now : Time) (currentIDs : list string) (db : Table) :
  let res := MarkFixed None now currentIDs db in
  res.1.2 = None ∧
  (∀ id r, db !! id = Some r → state r = StateOpen → id ∉ currentIDs →
     res.2 !! id =
       Some {| cve := cve r; workload := workload r; severity := severity r;
               image := image r; state := StateFixed;
               first_seen := first_seen r; last_seen := last_seen r;
               fixed_at := Some now |}) ∧
  (∀ id, (∀ r, db !! id = Some r → state r = StateFixed ∨ id ∈ currentIDs) →
     res.2 !! id = db !! id) ∧
  (∀ rec, rec ∈ res.1.1 ↔
     ∃ r, db !! (ID rec) = Some r ∧ state r = StateOpen ∧ (ID rec ∉ currentIDs) ∧
          rec = {| ID := ID rec; CVE := cve r; Workload := workload r;
                   Severity := severity r; Image := image r; State := StateFixed;
                   FirstSeen := first_seen r; LastSeen := zeroTime;
                   FixedAt := Some now |}) ∧
  NoDup (ID <$> res.1.1) ∧
  (∀ id, id ∈ currentIDs → res.2 !! id = db !! id) ∧
  (currentIDs = [] → ∀ id r, db !! id = Some r → state r = StateOpen →
     ∃ r', res.2 !! id = Some r' ∧ state r' = StateFixed ∧ fixed_at r' = Some now).
Proof.
  assert (Hsel : ∀ id r, (is_open r && not_all id currentIDs = true) ↔
                         state r = StateOpen ∧ id ∉ currentIDs).
  { intros id r. by rewrite andb_true_iff, is_open_spec, not_all_spec. }
  assert (Hkeep : ∀ id, (∀ r, db !! id = Some r → state r = StateFixed ∨ id ∈ currentIDs) →
                        (MarkFixed None now currentIDs db).2 !! id = db !! id).
  { intros id Hid. rewrite MarkFixed_lookup.
    destruct (db !! id) as [r|] eqn:Hr; simpl; [|done].
    destruct (is_open r && not_all id currentIDs) eqn:Hc; [|done].
    apply Hsel in Hc as [Hopen Hnot].
    destruct (Hid r eq_refl) as [Hfx|Hin]; [congruence | done]. }
  assert (Hfix : ∀ id r, db !! id = Some r → state r = StateOpen → id ∉ currentIDs →
                 (MarkFixed None now currentIDs db).2 !! id = Some (set_fixed now r)).
  { intros id r Hr Hopen Hnot. rewrite MarkFixed_lookup, Hr. simpl.
    by rewrite (proj2 (Hsel id r)). }
  cbv zeta. split_and!.
  - unfold MarkFixed, markAllFixed. by destruct (decide _).
  - intros id r Hr Hopen Hnot. by rewrite (Hfix id r).
  - exact Hkeep.
  - intros rec. rewrite MarkFixed_returned, list_elem_of_fmap. split.
    + intros [[id r] [-> Hin]]. apply elem_of_returning in Hin as [Hr Hc].
      apply Hsel in Hc as [Hopen Hnot]. by exists r.
    + intros (r & Hr & Hopen & Hnot & Hrec). exists (ID rec, r). split.
      * rewrite Hrec at 1. done.
      * apply elem_of_returning. split; [done|]. by apply Hsel.
  - rewrite MarkFixed_returned, <- list_fmap_compose.
    apply (NoDup_returning_ids (λ id r, is_open r && not_all id currentIDs) db).
  - intros id Hin. apply Hkeep. auto.
  - intros -> id r Hr Hopen. exists (set_fixed now r). split; [|done].
    apply Hfix; [done..|]. apply not_elem_of_nil.
Qed.

(** C5.  The lifecycle invariant - a FIXED row has fixed_at set, an OPEN
    row has fixed_at NULL - holds in every table the store operations
    produce from the empty table, and each operation preserves it:
    [UpsertVulnerability] on each of its paths (insert, refresh, reopen)
    and [MarkFixed], whatever the driver fails. *)
Theorem lifecycle_invariant :
  (∀ db : Table, reachable db →
     ∀ id r, db !! id = Some r →
       (state r = StateFixed → is_Some (fixed_at r)) ∧
       (state r = StateOpen → fixed_at r = None)) ∧
  (∀ qf ef now v (db : Table),
     store_ok db → store_ok (UpsertVulnerability qf ef now v db).2) ∧
  (∀ f now ids (db : Table),
     store_ok db → store_ok (MarkFixed f now ids db).2).
Proof.
  split_and!.
  - intros db Hreach.
    assert (Hok : store_ok db).
    { induction Hreach as [|qf ef now v db _ IH|f now ids db _ IH].
      - intros id r. by rewrite lookup_empty.
      - by apply store_ok_upsert.
      - by apply store_ok_fixed. }
    intros id r Hr. specialize (Hok id r Hr). unfold row_ok in Hok.
    destruct (state r); split; intros; done.
  - apply store_ok_upsert.
  - apply store_ok_fixed.
Qed.

Lemma lookup_one_open :
  one_open !! "f1" =
  Some {| cve := "CVE-1"; workload := "ns/deploy/a"; severity := "CRITICAL";
          image := "nginx:1.25"; state := StateOpen;
          first_seen := 10%Z; last_seen := 10%Z; fixed_at := None |}.
Proof.
  unfold one_open, UpsertVulnerability. rewrite lookup_empty.
  cbn [fmap option_fmap option_map exec snd]. unfold insert_new.
  apply lookup_insert_eq.
Qed.

Lemma lookup_one_fixed :
  one_fixed !! "f1" =
  Some {| cve := "CVE-1"; workload := "ns/deploy/a"; severity := "CRITICAL";
          image := "nginx:1.25"; state := StateFixed;
          first_seen := 10%Z; last_seen := 10%Z; fixed_at := Some 20%Z |}.
Proof. unfold one_fixed. by rewrite MarkFixed_lookup, lookup_one_open. Qed.

(** The three paths of C3 on the sample record: inserted into the empty
    table, refreshed while open, reopened after a fix. *)
Lemma UpsertVulnerability_contract_witness :
  (UpsertVulnerability None None 10%Z (sample "f1" "CVE-1") ∅).1.1 = true ∧
  (UpsertVulnerability None None 30%Z (sample "f1" "CVE-1") one_open).1.1 = false ∧
  (UpsertVulnerability None None 30%Z (sample "f1" "CVE-1") one_fixed).1.1 = true ∧
  (UpsertVulnerability None None 30%Z (sample "f1" "CVE-1") one_fixed).2 !! "f2" =
    one_fixed !! "f2".
Proof.
  pose proof (UpsertVulnerability_contract 10%Z (sample "f1" "CVE-1") ∅) as H1.
  pose proof (UpsertVulnerability_contract 30%Z (sample "f1" "CVE-1") one_open) as H2.
  pose proof (UpsertVulnerability_contract 30%Z (sample "f1" "CVE-1") one_fixed) as H3.
  cbv zeta in H1, H2, H3.
  change (ID (sample "f1" "CVE-1")) with "f1" in H1, H2, H3.
  rewrite lookup_empty in H1. rewrite lookup_one_open in H2.
  rewrite lookup_one_fixed in H3. simpl in H2, H3.
  destruct H1 as (_ & _ & H1 & _), H2 as (_ & _ & H2 & _), H3 as (_ & H3' & H3 & _).
  split_and!; [done..|]. by apply H3'.
Defined.

(** C4 on the sample table with one open row: an empty list of current
    ids fixes it, a list that names it leaves it alone. *)
Lemma MarkFixed_contract_witness :
  (∃ r', (MarkFixed None 20%Z [] one_open).2 !! "f1" = Some r' ∧
         state r' = StateFixed ∧ fixed_at r' = Some 20%Z) ∧
  (MarkFixed None 20%Z ["f1"] one_open).2 !! "f1" = one_open !! "f1".
Proof.
  split.
  - destruct (MarkFixed_contract 20%Z [] one_open) as (_ & _ & _ & _ & _ & _ & H).
    apply (H eq_refl "f1" _ lookup_one_open). done.
  - destruct (MarkFixed_contract 20%Z ["f1"] one_open) as (_ & _ & _ & _ & _ & H & _).
    apply H. apply list_elem_of_singleton. done.
Defined.

(** C5 on the sample table after a fix. *)
Lemma lifecycle_invariant_witness :
  reachable one_fixed ∧
  ∀ id r, one_fixed !! id = Some r →
    (state r = StateFixed → is_Some (fixed_at r)) ∧
    (state r = StateOpen → fixed_at r = None).
Proof.
  assert (H : reachable one_fixed).
  { unfold one_fixed, one_open. apply reach_fixed, reach_upsert, reach_empty. }
  split; [exact H | exact (proj1 lifecycle_invariant one_fixed H)].
Defined.

(** C9 as stated does not hold: the table has no column synced. *)
Lemma schema_no_synced_column :
  ¬ column_names "vulnerabilities" schema =
    ["id"; "cve"; "workload"; "severity"; "image"; "state";
     "first_seen"; "last_seen"; "fixed_at"; "synced"].
Proof. vm_compute. discriminate. Qed.

(** C9, amended.  The schema [migrate] creates is one table, keyed by
    id, with the nine columns id, cve, workload, severity, image, state,
    first_seen, last_seen and fixed_at, and an index on each of state,
    severity, cve and workload. *)
Theorem schema_shape :
  tables schema = ["vulnerabilities"] ∧
  primary_key "vulnerabilities" schema = ["id"] ∧
  column_names "vulnerabilities" schema =
    ["id"; "cve"; "workload"; "severity"; "image"; "state";
     "first_seen"; "last_seen"; "fixed_at"] ∧
  indexed_columns "vulnerabilities" schema = ["state"; "severity"; "cve"; "workload"].
Proof. by vm_compute. Qed.

End DBFacts.

(** ** Facts about notifier.go *)
Module NotifierFacts.
Import Notifier.

Lemma mapBytes_upper_fixed (s : string) :
  s ∈ ["CRITICAL"; "HIGH"; "MEDIUM"; "LOW"] → isASCII s = true ∧ mapBytes upperByte s = s.
Proof.
  rewrite !elem_of_cons, elem_of_nil.
  intros [->|[->|[->|[->|[]]]]]; by vm_compute.
Qed.

Lemma failures_app Do k reqs more :
  failures Do k (reqs ++ more) =
  failures Do k reqs + failures Do (k + length reqs) more.
Proof.
  revert k. induction reqs as [|r reqs IH]; intros k; simpl.
  - by replace (k + 0) with k by lia.
  - rewrite IH. replace (S k + length reqs) with (k + S (length reqs)) by lia. lia.
Qed.

Lemma failures_pos Do k reqs :
  0 < failures Do k reqs ↔
  ∃ i req, reqs !! i = Some req ∧ delivered Do (k + i) req = false.
Proof.
  revert k. induction reqs as [|r reqs IH]; intros k; simpl.
  - split; [lia|]. by intros (i & req & Hi & _).
  - destruct (delivered Do k r) eqn:Hr; simpl.
    + rewrite IH. split.
      * intros (i & req & Hi & Hd). exists (S i), req. split; [done|].
        by replace (k + S i) with (S k + i) by lia.
      * intros ([|i] & req & Hi & Hd); simpl in Hi.
        -- injection Hi as ->. rewrite Nat.add_0_r in Hd. congruence.
        -- exists i, req. split; [done|]. by replace (S k + i) with (k + S i) by lia.
    + split; [|lia]. intros _. exists 0, r. split; [done|]. by rewrite Nat.add_0_r.
Qed.

Section WithEnvironment.

Variable unicodeToUpper : string → string.
Variable Do : nat → Request → Response.
Variable config : Config.

Local Abbreviation ToUpper := (Notifier.ToUpper unicodeToUpper).
Local Abbreviation severityLevel := (Notifier.severityLevel unicodeToUpper).
Local Abbreviation filterBySeverity := (Notifier.filterBySeverity unicodeToUpper config).
Local Abbreviation NotifyInitialized := (Notifier.NotifyInitialized Do config).
Local Abbreviation Notify := (Notifier.Notify unicodeToUpper Do config).

Lemma ToUpper_fixed (s : string) :
  s ∈ ["CRITICAL"; "HIGH"; "MEDIUM"; "LOW"] → ToUpper s = s.
Proof.
  intros Hs. apply mapBytes_upper_fixed in Hs as [Ha Hm].
  unfold Notifier.ToUpper. by rewrite Ha.
Qed.

Lemma severityLevel_unknown (s : string) :
  severityLevel s = 5%Z ↔ ToUpper s ∉ ["CRITICAL"; "HIGH"; "MEDIUM"; "LOW"].
Proof.
  unfold Notifier.severityLevel. cbv zeta.
  rewrite !not_elem_of_cons.
  destruct (String.eqb_spec (ToUpper s) "CRITICAL") as [->|H1]; [split; [done|tauto]|].
  destruct (String.eqb_spec (ToUpper s) "HIGH") as [->|H2]; [split; [done|tauto]|].
  destruct (String.eqb_spec (ToUpper s) "MEDIUM") as [->|H3]; [split; [done|tauto]|].
  destruct (String.eqb_spec (ToUpper s) "LOW") as [->|H4]; [split; [done|tauto]|].
  split; [|done]. intros _. split_and!; try done. apply not_elem_of_nil.
Qed.

Lemma filterBySeverity_cons e events :
  filterBySeverity (e :: events) =
  if decide (severityLevel (Severity e) ≤ severityLevel (MinSeverity config))%Z
  then e :: filterBySeverity events else filterBySeverity events.
Proof. unfold Notifier.filterBySeverity. cbv zeta. by rewrite filter_cons. Qed.

Lemma filterBySeverity_none events :
  (∀ e, e ∈ events →
     (severityLevel (MinSeverity config) < severityLevel (Severity e))%Z) →
  filterBySeverity events = [].
Proof.
  induction events as [|e events IH]; intros Hall; [done|].
  rewrite filterBySeverity_cons.
  pose proof (Hall e (list_elem_of_here _ _)).
  rewrite decide_False by lia.
  apply IH. intros e' He'. apply Hall. by apply list_elem_of_further.
Qed.

(** C6.  [filterBySeverity] keeps, in order, exactly the events whose
    [severityLevel] is at most that of the configured minimum;
    [severityLevel] is 1, 2, 3, 4 for CRITICAL, HIGH, MEDIUM, LOW and 5 for
    every string whose upper-case form is none of these; so with the
    minimum HIGH a CRITICAL event passes, and a MEDIUM event and an event of
    unknown severity are dropped. *)
Theorem severity_filter :
  (∀ events e,
     e ∈ filterBySeverity events ↔
     e ∈ events ∧ (severityLevel (Severity e) ≤ severityLevel (MinSeverity config))%Z) ∧
  (filterBySeverity [] = [] ∧
   ∀ e events,
     filterBySeverity (e :: events) =
     if decide (severityLevel (Severity e) ≤ severityLevel (MinSeverity config))%Z
     then e :: filterBySeverity events else filterBySeverity events) ∧
  (severityLevel "CRITICAL" = 1 ∧ severityLevel "HIGH" = 2 ∧
   severityLevel "MEDIUM" = 3 ∧ severityLevel "LOW" = 4)%Z ∧
  (∀ s, severityLevel s = 5%Z ↔ ToUpper s ∉ ["CRITICAL"; "HIGH"; "MEDIUM"; "LOW"]) ∧
  (MinSeverity config = "HIGH" →
   ∀ e,
     (Severity e = "CRITICAL" → filterBySeverity [e] = [e]) ∧
     (Severity e = "MEDIUM" → filterBySeverity [e] = []) ∧
     (severityLevel (Severity e) = 5%Z → filterBySeverity [e] = [])).
Proof.
  assert (Hranks : (severityLevel "CRITICAL" = 1 ∧ severityLevel "HIGH" = 2 ∧
                    severityLevel "MEDIUM" = 3 ∧ severityLevel "LOW" = 4)%Z).
  { by vm_compute. }
  split_and!; try apply Hranks.
  - intros events e. unfold Notifier.filterBySeverity. cbv zeta.
    rewrite list_elem_of_filter. tauto.
  - done.
  - apply filterBySeverity_cons.
  - apply severityLevel_unknown.
  - intros Hmin e. destruct Hranks as (HC & HH & HM & _).
    split_and!; intros He; rewrite filterBySeverity_cons, Hmin, HH.
    + rewrite He, HC. by rewrite decide_True by lia.
    + rewrite He, HM. by rewrite decide_False by lia.
    + rewrite He. by rewrite decide_False by lia.
Qed.

(** C10.  When no event's severity meets the configured minimum, [Notify]
    returns nil and leaves the world as it was: nothing is posted to any
    channel and nothing is logged, whatever channels are configured. *)
Theorem Notify_nothing_to_send (events : list VulnerabilityEvent) (w : World) :
  (∀ e, e ∈ events →
     (severityLevel (MinSeverity config) < severityLevel (Severity e))%Z) →
  Notify events w = (None, w).
Proof.
  intros Hall. unfold Notifier.Notify. cbv zeta.
  by rewrite filterBySeverity_none.
Qed.

(** What [channel] contributes when its send is one [post]: nothing for an
    empty target; otherwise the request, and one more error exactly when it
    was not delivered. *)
Lemma channel_post target req debug failure errs w :
  let res := channel target (post Do req debug) failure errs w in
  posts res.2 = posts w ++ (if decide (target = "") then [] else [req]) ∧
  length res.1 = length errs + failures Do (length (posts w))
                                 (if decide (target = "") then [] else [req]).
Proof.
  unfold channel. destruct (decide (target = "")) as [Ht|Ht]; simpl.
  - by rewrite app_nil_r, Nat.add_0_r.
  - unfold mbind, M_bind, post, delivered.
    destruct (Do (length (posts w)) req) as [msg|code]; simpl.
    + by rewrite length_app.
    + destruct (300 <=? code)%Z; simpl; [by rewrite length_app|].
      by rewrite Nat.add_0_r.
Qed.

(** Three [channel] blocks in a row, then [combined]. *)
Lemma three_channels t1 t2 t3 r1 r2 r3 d1 d2 d3 f1 f2 f3 w :
  channel_of r1 = Slack → channel_of r2 = Webhook → channel_of r3 = Saas →
  t1 = SlackWebhook config → t2 = GenericWebhook config → t3 = SaasEndpoint config →
  fan_out Do config w
    ((errs ← channel t1 (post Do r1 d1) f1 [];
      errs ← channel t2 (post Do r2 d2) f2 errs;
      errs ← channel t3 (post Do r3 d3) f3 errs;
      mret (combined errs)) w).
Proof.
  intros Hc1 Hc2 Hc3 -> -> ->.
  unfold mbind, M_bind at 1.
  pose proof (channel_post (SlackWebhook config) r1 d1 f1 [] w) as [Hp1 He1].
  destruct (channel (SlackWebhook config) (post Do r1 d1) f1 [] w) as [e1 w1].
  unfold M_bind at 1.
  pose proof (channel_post (GenericWebhook config) r2 d2 f2 e1 w1) as [Hp2 He2].
  destruct (channel (GenericWebhook config) (post Do r2 d2) f2 e1 w1) as [e2 w2].
  unfold M_bind at 1.
  pose proof (channel_post (SaasEndpoint config) r3 d3 f3 e2 w2) as [Hp3 He3].
  destruct (channel (SaasEndpoint config) (post Do r3 d3) f3 e2 w2) as [e3 w3].
  simpl in *. unfold mret, M_ret. simpl.
  set (q1 := if decide (SlackWebhook config = "") then [] else [r1]) in *.
  set (q2 := if decide (GenericWebhook config = "") then [] else [r2]) in *.
  set (q3 := if decide (SaasEndpoint config = "") then [] else [r3]) in *.
  exists (q1 ++ q2 ++ q3). simpl. split_and!.
  - rewrite Hp3, Hp2, Hp1. by rewrite <- !(assoc_L (++)).
  - unfold enabled, q1, q2, q3. rewrite !fmap_app.
    rewrite !filter_cons, filter_nil. simpl.
    repeat case_decide; simpl; by rewrite ?Hc1, ?Hc2, ?Hc3.
  - assert (Hlen : length e3 = failures Do (length (posts w)) (q1 ++ q2 ++ q3)).
    { rewrite He3, He2, He1, Hp2, Hp1, !length_app, !failures_app. simpl. lia. }
    rewrite <- failures_pos, <- Hlen. unfold combined.
    destruct (decide (0 < length e3)); split; intros; done.
Qed.

(** C7, amended.  [NotifyInitialized], for every list of events, and
    [Notify], for every list of events of which at least one passes the
    severity filter, post to every enabled channel in turn whatever
    happened to the earlier ones, and return an error if and only if at
    least one of these posts was not delivered. *)
Theorem notify_fans_out (events : list VulnerabilityEvent) (w : World) :
  fan_out Do config w (NotifyInitialized events w) ∧
  (filterBySeverity events ≠ [] → fan_out Do config w (Notify events w)).
Proof.
  split.
  - unfold Notifier.NotifyInitialized, sendSlackSummary, sendWebhookSummary,
      sendSaasSummary, postJSON, postJSONWithAuth.
    by apply three_channels.
  - intros Hne. unfold Notifier.Notify. cbv zeta.
    destruct (decide (length (filterBySeverity events) = 0)) as [Hz|_].
    { by apply nil_length_inv in Hz. }
    unfold sendSlack, sendWebhook, sendSaas, postJSON, postJSONWithAuth.
    by apply three_channels.
Qed.

End WithEnvironment.

(** C6 on three events, with the minimum HIGH. *)
Lemma severity_filter_witness :
  filterBySeverity id (slack_only "HIGH") [event "e1" "CRITICAL"] = [event "e1" "CRITICAL"] ∧
  filterBySeverity id (slack_only "HIGH") [event "e2" "MEDIUM"] = [] ∧
  filterBySeverity id (slack_only "HIGH") [event "e3" "UNKNOWN"] = [].
Proof.
  destruct (severity_filter id (slack_only "HIGH")) as (_ & _ & _ & _ & H).
  specialize (H eq_refl). split_and!.
  - destruct (H (event "e1" "CRITICAL")) as (H1 & _ & _). by apply H1.
  - destruct (H (event "e2" "MEDIUM")) as (_ & H2 & _). by apply H2.
  - destruct (H (event "e3" "UNKNOWN")) as (_ & _ & H3). by apply H3.
Defined.

(** C10 on a LOW event with the minimum CRITICAL and Slack configured. *)
Lemma Notify_nothing_to_send_witness :
  Notify id all_ok (slack_only "CRITICAL") [event "e1" "LOW"] quiet = (None, quiet).
Proof.
  apply Notify_nothing_to_send.
  intros e He. apply list_elem_of_singleton in He as ->. reflexivity.
Defined.

(** C7 as stated does not hold for [Notify]: with Slack enabled and the
    minimum CRITICAL, a LOW event is posted to no channel. *)
Lemma Notify_skips_enabled_channel :
  enabled (slack_only "CRITICAL") = [Slack] ∧
  posts (Notify id all_ok (slack_only "CRITICAL") [event "e1" "LOW"] quiet).2 = [] ∧
  ¬ fan_out all_ok (slack_only "CRITICAL") quiet
      (Notify id all_ok (slack_only "CRITICAL") [event "e1" "LOW"] quiet).
Proof.
  split_and!; [by vm_compute..|].
  intros (reqs & Hposts & Hch & _).
  change (posts (Notify id all_ok (slack_only "CRITICAL") [event "e1" "LOW"] quiet).2)
    with (@nil Request) in Hposts.
  simpl in Hposts. subst reqs. by vm_compute in Hch.
Qed.

(** C7, amended, on a CRITICAL event with Slack configured. *)
Lemma notify_fans_out_witness :
  filterBySeverity id (slack_only "CRITICAL") [event "e1" "CRITICAL"] ≠ [] ∧
  fan_out all_ok (slack_only "CRITICAL") quiet
    (Notify id all_ok (slack_only "CRITICAL") [event "e1" "CRITICAL"] quiet).
Proof.
  assert (H : filterBySeverity id (slack_only "CRITICAL") [event "e1" "CRITICAL"] ≠ []).
  { by vm_compute. }
  split; [exact H|].
  exact (proj2 (notify_fans_out id all_ok (slack_only "CRITICAL")
                  [event "e1" "CRITICAL"] quiet) H).
Defined.

End NotifierFacts.

(** ** Facts about the poll cycle and the server *)
Module ServerFacts.
Import Server.

Lemma app_snoc_inv {A} (pre post tr : list A) (x y : A) :
  pre ++ x :: post = tr ++ [y] →
  (post = [] ∧ pre = tr ∧ x = y) ∨
  (∃ post', post = post' ++ [y] ∧ tr = pre ++ x :: post').
Proof.
  destruct post as [|z post _] using rev_ind; intros Heq.
  - left. apply (app_inj_tail pre tr x y) in Heq as [-> ->]. done.
  - right. exists post.
    change (pre ++ x :: post ++ [z]) with (pre ++ (x :: post) ++ [z]) in Heq.
    rewrite (assoc_L (++)) in Heq.
    apply app_inj_tail in Heq as [<- ->]. done.
Qed.

Lemma serve_healthz (b : bool) : serve b "/healthz" = 200%Z.
Proof. reflexivity. Qed.

Lemma serve_readyz (b : bool) : serve b "/readyz" = (if b then 200 else 503)%Z.
Proof. by destruct b. Qed.

Section WithCollaborators.

Variable fingerprint : string → string → string.
Variable Tracking : Type.
Variable GetUnsyncedVulnerabilities :
  DB.Table → Tracking → list DB.VulnerabilityRecord * option error.
Variable MarkSaasSynced : list string → Tracking → option error * Tracking.
Variable notifier : nat → Call → option SaasResult.
Variable config : Config.

Local Abbreviation Poll := (Server.Poll fingerprint Tracking).
Local Abbreviation upsertEach := (Server.upsertEach Tracking).
Local Abbreviation polled :=
  (Server.polled Tracking GetUnsyncedVulnerabilities MarkSaasSynced notifier config).
Local Abbreviation poll :=
  (Server.poll fingerprint Tracking GetUnsyncedVulnerabilities MarkSaasSynced
               notifier config).
Local Abbreviation step :=
  (Server.step fingerprint Tracking GetUnsyncedVulnerabilities MarkSaasSynced
               notifier config).

(** A cycle whose fetch succeeds does execute store operations: one
    [Upsert] per candidate, then [MarkFixed]. *)
Lemma upsertEach_ops clk k cands (w : World Tracking) :
  ops (upsertEach clk k cands w).2 = ops w ++ (OpUpsert <$> (DB.ID <$> cands)).
Proof.
  revert k w. induction cands as [|v cands IH]; intros k w.
  - simpl. by rewrite app_nil_r.
  - cbn [Server.upsertEach].
    destruct (DB.UpsertVulnerability None None (clk k) v (table w)) as [[isNew err] tb].
    specialize (IH (S k) (add_op Tracking (OpUpsert (DB.ID v)) (with_table Tracking tb w))).
    destruct (Server.upsertEach _ _ _ _ _) as [events w2]. simpl in *.
    by rewrite IH, <- (assoc_L (++)).
Qed.

Lemma Poll_listed_ops cy items (w : World Tracking) :
  fetch cy = Listed items →
  ops (Poll cy w).2 =
  ops w ++ (OpUpsert <$> (DB.ID <$> (candidate fingerprint <$> items)))
        ++ [OpMarkFixed (DB.ID <$> (candidate fingerprint <$> items))].
Proof.
  intros Hf. unfold Server.Poll. rewrite Hf.
  pose proof (upsertEach_ops (clock cy) 0 (candidate fingerprint <$> items) w) as Hops.
  destruct (Server.upsertEach _ _ _ _ _) as [newEvents w1].
  destruct (DB.MarkFixed _ _ _ _) as [[fixed err] tb]. simpl in *.
  by rewrite Hops, <- (assoc_L (++)).
Qed.

Lemma poll_ready cy (s : State Tracking) : ready (poll cy s) = ready s.
Proof.
  unfold Server.poll, Server.polled.
  destruct (Server.Poll _ _ _ _) as [[events err] w].
  destruct err; [done|].
  destruct (negb _); [done|]. by destruct (firstPoll s).
Qed.

(** C1.  In a cycle whose Scanner Source fetch fails, [Poll] returns the
    error and no events and leaves the world as it was, and [Server.poll]
    returns at once: the table and the delivery tracking are what they were
    before the cycle, no store operation is executed (no Upsert, no
    MarkFixed), and the notifier is not called. *)
Theorem failed_fetch_no_mutation (cy : Cycle) (e : error) (s : State Tracking) :
  fetch cy = FetchFailed e →
  Poll cy (world s) = (([], Some e), world s) ∧
  table (world (poll cy s)) = table (world s) ∧
  tracking (world (poll cy s)) = tracking (world s) ∧
  ops (world (poll cy s)) = ops (world s) ∧
  calls (world (poll cy s)) = calls (world s) ∧
  firstPoll (poll cy s) = firstPoll s.
Proof.
  intros Hf. unfold Server.poll, Server.Poll. rewrite Hf. by simpl.
Qed.

Lemma handleSaasResult_calls result (w : World Tracking) :
  calls (handleSaasResult Tracking MarkSaasSynced result w) = calls w.
Proof.
  unfold handleSaasResult. destruct result as [res|]; [|done].
  destruct (decide (0 < length (SyncedIDs res))); simpl.
  - destruct (MarkSaasSynced _ _) as [[err|] tr]; simpl; by destruct (Err res).
  - by destruct (Err res).
Qed.

(** The reaction of [Server.poll] to a successful [Poll] on the first
    cycle, when notifications are configured, depends on the events alone:
    after the retry of unsynced events, [NotifyInitialized] is invoked on
    the events when there is at least one, whatever the store held before
    the cycle; [Notify] is not invoked. *)
Lemma first_cycle_calls events (w : World Tracking) (s : State Tracking) :
  firstPoll s = true → HasNotifications config = true →
  calls (world (polled events None w s)) =
  calls (if decide (SaasEndpoint config = "") then w
         else retrySaasSync Tracking GetUnsyncedVulnerabilities MarkSaasSynced notifier w)
  ++ (if decide (0 < length events) then [CallNotifyInitialized events] else []).
Proof.
  intros Hfirst Hhas. unfold Server.polled. rewrite Hhas, Hfirst. simpl.
  destruct (decide (0 < length events)); simpl; [|by rewrite app_nil_r].
  by rewrite handleSaasResult_calls.
Qed.

Lemma run_ok_start (w : World Tracking) : run_ok Tracking (start Tracking w).
Proof.
  split_and!; [done..|]. intros pre path code post Heq.
  by destruct pre.
Qed.

Lemma run_ok_step (d d' : Daemon Tracking) :
  run_ok Tracking d → step d d' → run_ok Tracking d'.
Proof.
  intros (Hready & Hpc & Hserved) Hstep.
  destruct Hstep as [d path|d cy Hinit|d cy Htick|d Htick]; simpl.
  - split_and!; simpl.
    + by rewrite existsb_app, orb_false_r.
    + intros Hne. rewrite existsb_app, orb_false_r. auto.
    + intros pre p code post Heq. symmetry in Heq.
      apply app_snoc_inv in Heq as [(-> & -> & Hev)|(post' & -> & Htr)].
      * injection Hev as -> ->. by rewrite Hready.
      * by apply (Hserved pre p code post').
  - split_and!; simpl.
    + by rewrite existsb_app, orb_true_r.
    + intros _. by rewrite existsb_app, orb_true_r.
    + intros pre p code post Heq. symmetry in Heq.
      apply app_snoc_inv in Heq as [(-> & -> & Hev)|(post' & -> & Htr)]; [done|].
      by apply (Hserved pre p code post').
  - split_and!; simpl.
    + rewrite existsb_app, orb_true_r, poll_ready, Hready.
      apply Hpc. by rewrite Htick.
    + intros _. by rewrite existsb_app, orb_true_r.
    + intros pre p code post Heq. symmetry in Heq.
      apply app_snoc_inv in Heq as [(-> & -> & Hev)|(post' & -> & Htr)]; [done|].
      by apply (Hserved pre p code post').
  - split_and!; simpl; [done| |done]. intros _. apply Hpc. by rewrite Htick.
Qed.

Lemma answers_snoc (tr : list Event) (e : Event) :
  answers (tr ++ [e]) =
  answers tr ++ match e with Served path code => [(path, code)] | CycleDone _ => [] end.
Proof. unfold answers. rewrite omap_app. by destruct e. Qed.

(** Keeping [s.poll(ctx)] and [s.ready.Store(true)] apart changes nothing
    for the health requests: every run of [fine_step] is matched by a run
    of [step] with the same answers. *)
Lemma fine_run_stands (w : World Tracking) (f : Fine Tracking) :
  rtc (fine_step fingerprint Tracking GetUnsyncedVulnerabilities MarkSaasSynced
                 notifier config) (fine_start Tracking w) f →
  ∃ d, rtc step (start Tracking w) d ∧
       stands_for fingerprint Tracking GetUnsyncedVulnerabilities MarkSaasSynced
                  notifier config d f.
Proof.
  revert f. apply rtc_ind_r.
  - exists (start Tracking w). split; [apply rtc_refl | by split].
  - intros f f' _ Hstep (d & Hrun & Hans & Hline).
    destruct Hstep as [f path|f cy Hl|f Hl|f cy Hl|f Hl]; simpl.
    + eexists. split.
      * eapply rtc_r; [exact Hrun | apply (Server.step_request _ _ _ _ _ _ d path)].
      * split; simpl.
        -- rewrite answers_snoc, Hans. do 3 f_equal.
           destruct (line f); destruct Hline as [_ Hs]; try by rewrite Hs.
           destruct Hs as [cy ->]. by rewrite poll_ready.
        -- destruct (line f); done.
    + rewrite Hl in Hline. destruct Hline as [Hpc Hs].
      exists d. split; [done|]. split; simpl; [done|].
      split; [done|]. exists cy. by rewrite Hs.
    + rewrite Hl in Hline. destruct Hline as [Hpc [cy Hs]].
      eexists. split.
      * eapply rtc_r; [exact Hrun | by apply (Server.step_initial _ _ _ _ _ _ d cy)].
      * split; simpl; [by rewrite answers_snoc, app_nil_r|]. by rewrite Hs.
    + rewrite Hl in Hline. destruct Hline as [Hpc Hs].
      eexists. split.
      * eapply rtc_r; [exact Hrun | by apply (Server.step_tick _ _ _ _ _ _ d cy)].
      * split; simpl; [by rewrite answers_snoc, app_nil_r|]. by rewrite Hs.
    + rewrite Hl in Hline. destruct Hline as [Hpc Hs].
      eexists. split.
      * eapply rtc_r; [exact Hrun | by apply (Server.step_done _ _ _ _ _ _ d)].
      * by split.
Qed.

(** C8.  In every run of the daemon, every request to /healthz is
    answered 200, and a request to /readyz is answered 503 when no poll
    cycle has finished before it and 200 when one has; the flag [ready] is
    set as soon as the first cycle has finished, whether [Poll] failed in it
    or not, and stays set. *)
Theorem health_endpoints (w : World Tracking) (d : Daemon Tracking) :
  rtc step (start Tracking w) d →
  (∀ pre code post,
     trace d = pre ++ Served "/healthz" code :: post → code = 200%Z) ∧
  (∀ pre code post,
     trace d = pre ++ Served "/readyz" code :: post →
     code = if existsb is_cycle pre then 200%Z else 503%Z) ∧
  ready (server d) = existsb is_cycle (trace d) ∧
  (∀ cy, pc d = Initial →
     ∃ d', step d d' ∧ ready (server d') = true ∧
           trace d' = trace d ++ [CycleDone (cycle_failed cy)]).
Proof.
  intros Hrun.
  assert (Hok : run_ok Tracking d).
  { revert d Hrun. apply rtc_ind_r.
    - apply run_ok_start.
    - intros d1 d2 _ Hstep IH. by apply (run_ok_step d1). }
  destruct Hok as (Hready & _ & Hserved). split_and!.
  - intros pre code post Heq. rewrite <- (serve_healthz (existsb is_cycle pre)).
    by apply (Hserved pre "/healthz" code post).
  - intros pre code post Heq. rewrite <- serve_readyz.
    by apply (Hserved pre "/readyz" code post).
  - done.
  - intros cy Hinit. eexists. split; [by apply (Server.step_initial _ _ _ _ _ _ d cy)|].
    done.
Qed.

End WithCollaborators.

Local Abbreviation poll1 :=
  (Server.poll join_fingerprint unit no_unsynced mark_ok nil_result
               (Notifier.slack_only "CRITICAL")).
Local Abbreviation step1 :=
  (Server.step join_fingerprint unit no_unsynced mark_ok nil_result
               (Notifier.slack_only "CRITICAL")).

(** C1 on a scanner outage at the first cycle after a restart. *)
Lemma failed_fetch_no_mutation_witness :
  fetch outage = FetchFailed (ErrScanner "connection refused") ∧
  table (world (poll1 outage (New unit restarted))) = DB.one_open ∧
  ops (world (poll1 outage (New unit restarted))) = [].
Proof.
  assert (H : fetch outage = FetchFailed (ErrScanner "connection refused")) by done.
  split; [exact H|].
  destruct (failed_fetch_no_mutation join_fingerprint unit no_unsynced mark_ok
              nil_result (Notifier.slack_only "CRITICAL") outage _
              (New unit restarted) H) as (_ & Ht & _ & Ho & _).
  split; [exact Ht | exact Ho].
Defined.

(** C2 at its failing input.  The process restarts on a store that holds
    one open record, Slack is configured, and in the first cycle the
    scanner lists nothing: the cycle yields one FIXED event and
    [Server.poll] invokes [NotifyInitialized] on it. *)
Theorem restart_sends_initialized :
  table restarted !! "f1" ≠ None ∧
  calls (world (poll1 nothing_found (New unit restarted))) =
    [CallNotifyInitialized
       [{| Notifier.ID := "f1"; Notifier.Type_ := "FIXED"; Notifier.CVE := "CVE-1";
           Notifier.Workload := "ns/deploy/a"; Notifier.Severity := "CRITICAL";
           Notifier.Image := "nginx:1.25"; Notifier.FirstSeen := 10%Z;
           Notifier.FixedAt := Some 20%Z |}]].
Proof. split; by vm_compute. Qed.

(** C8 on a run with an outage at startup: /readyz is asked before and
    after the first cycle, in which the fetch fails. *)
Lemma health_endpoints_witness :
  ∃ d, rtc step1 (start unit fresh) d ∧
       trace d = [Served "/readyz" 503%Z; CycleDone true; Served "/readyz" 200%Z] ∧
       ready (server d) = true ∧
       ∀ pre code post,
         trace d = pre ++ Served "/readyz" code :: post →
         code = if existsb is_cycle pre then 200%Z else 503%Z.
Proof.
  assert (Hex : ∃ d, rtc step1 (start unit fresh) d ∧
                     trace d = [Served "/readyz" 503%Z; CycleDone true;
                                Served "/readyz" 200%Z] ∧
                     ready (server d) = true).
  { eexists. split.
    - eapply rtc_l; [apply (Server.step_request _ _ _ _ _ _ _ "/readyz")|].
      eapply rtc_l; [by apply (Server.step_initial _ _ _ _ _ _ _ outage)|].
      eapply rtc_l; [apply (Server.step_request _ _ _ _ _ _ _ "/readyz")|].
      apply rtc_refl.
    - split; reflexivity. }
  destruct Hex as (d & Hrun & Htrace & Hready).
  exists d. split; [exact Hrun|]. split; [exact Htrace|]. split; [exact Hready|].
  destruct (health_endpoints join_fingerprint unit no_unsynced mark_ok nil_result
              (Notifier.slack_only "CRITICAL") fresh d Hrun) as (_ & H & _).
  exact H.
Defined.

End ServerFacts.

(** ** Laws of the store *)
Module StoreLaws.
Import DB DBFacts.

(** The row a healthy [UpsertVulnerability] leaves under the record's id. *)
Lemma Upsert_lookup now v (db : Table) :
  (UpsertVulnerability None None now v db).2 !! ID v =
  Some match db !! ID v with
       | None => {| cve := CVE v; workload := Workload v; severity := Severity v;
                    image := Image v; state := StateOpen;
                    first_seen := now; last_seen := now; fixed_at := None |}
       | Some r => if decide (state r = StateFixed) then set_reopened v now r
                   else set_seen v now r
       end.
Proof.
  unfold UpsertVulnerability.
  destruct (db !! ID v) as [r|] eqn:Hv; simpl.
  - destruct (decide (state r = StateFixed)); simpl;
      by rewrite lookup_update_where_id, decide_True, Hv.
  - unfold insert_new. by rewrite lookup_insert_eq.
Qed.

Lemma Upsert_result now v (db : Table) :
  (UpsertVulnerability None None now v db).1 =
  (match db !! ID v with
   | None => true
   | Some r => bool_decide (state r = StateFixed)
   end, None).
Proof.
  unfold UpsertVulnerability.
  destruct (db !! ID v) as [r|]; simpl; [|done].
  by destruct (decide (state r = StateFixed)); simpl;
    [rewrite bool_decide_eq_true_2|rewrite bool_decide_eq_false_2].
Qed.

Lemma Upsert_open now v (db : Table) :
  ∃ row, (UpsertVulnerability None None now v db).2 !! ID v = Some row ∧
         state row = StateOpen.
Proof.
  rewrite Upsert_lookup. eexists. split; [done|].
  destruct (db !! ID v) as [r|]; [|done].
  destruct (decide (state r = StateFixed)); simpl; [done|]. by destruct (state r).
Qed.

(** X1.  A second [UpsertVulnerability] of the same id, right after a
    first one, is never new: it returns isNew = false, keeps first_seen
    (and cve and workload) of the row the first call left, and sets
    last_seen to its own instant and severity and image to its own
    values. *)
Theorem Upsert_again (now1 now2 : Time) (v v' : VulnerabilityRecord) (db : Table) :
  ID v' = ID v →
  let db1 := (UpsertVulnerability None None now1 v db).2 in
  let res := UpsertVulnerability None None now2 v' db1 in
  res.1 = (false, None) ∧
  ∃ row, db1 !! ID v = Some row ∧
         res.2 !! ID v =
           Some {| cve := cve row; workload := workload row; severity := Severity v';
                   image := Image v'; state := StateOpen;
                   first_seen := first_seen row; last_seen := now2;
                   fixed_at := fixed_at row |}.
Proof.
  intros Hid. cbv zeta.
  destruct (Upsert_open now1 v db) as (row & Hrow & Hopen).
  split.
  - rewrite Upsert_result, Hid, Hrow.
    rewrite bool_decide_eq_false_2; [done|]. by rewrite Hopen.
  - exists row. split; [done|]. rewrite <- Hid at 1. rewrite Upsert_lookup, Hid, Hrow.
    rewrite decide_False by (by rewrite Hopen). unfold set_seen. by rewrite Hopen.
Qed.

Lemma perform_keeps (op : Operation) (db : Table) id r :
  db !! id = Some r →
  ∃ r', perform db op !! id = Some r' ∧
        cve r' = cve r ∧ workload r' = workload r ∧ first_seen r' = first_seen r.
Proof.
  intros Hr. destruct op as [qf ef now v|f now ids]; simpl.
  - unfold UpsertVulnerability. destruct qf; [by exists r|].
    destruct (db !! ID v) as [r0|] eqn:Hv; simpl.
    + destruct (decide (state r0 = StateFixed)); destruct ef; simpl;
        try (by exists r);
        rewrite lookup_update_where_id;
        (destruct (decide (ID v = id)) as [<-|]; [|by exists r]);
        rewrite Hr; simpl; by eexists.
    + destruct ef; simpl; [by exists r|]. unfold insert_new.
      rewrite lookup_insert_ne by congruence. by exists r.
  - destruct f as [e|]; [rewrite MarkFixed_fault; by exists r|].
    rewrite MarkFixed_lookup, Hr. simpl.
    destruct (is_open r && not_all id ids); by eexists.
Qed.

(** X2.  No history of store operations, whatever the driver fails,
    deletes a row or changes its cve, workload or first_seen. *)
Theorem rows_persist (ops : list Operation) (db : Table) (id : string) (r : Row) :
  db !! id = Some r →
  ∃ r', history ops db !! id = Some r' ∧
        cve r' = cve r ∧ workload r' = workload r ∧ first_seen r' = first_seen r.
Proof.
  unfold history. revert db r. induction ops as [|op ops IH]; intros db r Hr; simpl.
  - by exists r.
  - destruct (perform_keeps op db id r Hr) as (r1 & Hr1 & Hc & Hw & Hf).
    destruct (IH _ _ Hr1) as (r' & Hr' & Hc' & Hw' & Hf').
    exists r'. split; [done|]. by rewrite Hc', Hw', Hf'.
Qed.

Lemma returning_nil cond (db : Table) :
  (∀ id r, db !! id = Some r → cond id r = false) → returning cond db = [].
Proof.
  intros Hnone. destruct (returning cond db) as [|[id r] l] eqn:Hret; [done|].
  assert (Hin : (id, r) ∈ returning cond db) by (rewrite Hret; apply list_elem_of_here).
  apply elem_of_returning in Hin as [Hr Hc]. rewrite (Hnone id r Hr) in Hc. done.
Qed.

(** X3.  [MarkFixed] is idempotent: called again with the same current
    ids, at any later instant, it returns no record and leaves every row,
    with its fixed_at, as the first call left it. *)
Theorem MarkFixed_again (now1 now2 : Time) (ids : list string) (db : Table) :
  let db1 := (MarkFixed None now1 ids db).2 in
  MarkFixed None now2 ids db1 = (([], None), db1).
Proof.
  cbv zeta.
  assert (Hcond : ∀ id r, (MarkFixed None now1 ids db).2 !! id = Some r →
                          is_open r && not_all id ids = false).
  { intros id r. rewrite MarkFixed_lookup.
    destruct (db !! id) as [r0|]; simpl; [|done]. intros [= <-].
    destruct (is_open r0 && not_all id ids) eqn:Hc; [done|done]. }
  rewrite (surjective_pairing (MarkFixed None now2 ids _)).
  rewrite (surjective_pairing (MarkFixed None now2 ids _).1).
  f_equal; [f_equal|].
  - rewrite MarkFixed_returned, returning_nil; done.
  - unfold MarkFixed, markAllFixed. by destruct (decide _).
  - apply map_eq. intros id. rewrite MarkFixed_lookup.
    destruct (_ !! id) as [r|] eqn:Hr; simpl; [|done].
    by rewrite (Hcond id r Hr).
Qed.

(** X4.  A record that [MarkFixed] has fixed comes back with the next
    [UpsertVulnerability]: the call returns isNew = true, and the row is
    OPEN again with fixed_at NULL, its first_seen from before the fix, and
    last_seen at the instant of the call. *)
Theorem fixed_then_reopened (now1 now2 : Time) (ids : list string)
    (v : VulnerabilityRecord) (db : Table) (r : Row) :
  db !! ID v = Some r → state r = StateOpen → ID v ∉ ids →
  let db1 := (MarkFixed None now1 ids db).2 in
  let res := UpsertVulnerability None None now2 v db1 in
  (∃ r1, db1 !! ID v = Some r1 ∧ state r1 = StateFixed ∧ fixed_at r1 = Some now1) ∧
  res.1 = (true, None) ∧
  res.2 !! ID v =
    Some {| cve := cve r; workload := workload r; severity := Severity v;
            image := Image v; state := StateOpen;
            first_seen := first_seen r; last_seen := now2; fixed_at := None |}.
Proof.
  intros Hr Hopen Hnot. cbv zeta.
  assert (H1 : (MarkFixed None now1 ids db).2 !! ID v = Some (set_fixed now1 r)).
  { rewrite MarkFixed_lookup, Hr. simpl.
    by rewrite (proj2 (is_open_spec r) Hopen), (proj2 (not_all_spec _ _) Hnot). }
  split_and!.
  - by exists (set_fixed now1 r).
  - rewrite Upsert_result, H1. done.
  - rewrite Upsert_lookup, H1. done.
Qed.

(** X5.  When [UpsertVulnerability] returns an error the table is as it
    was, and the call returns an error exactly when the driver failed the
    SELECT or the write.  isNew is false when the SELECT failed; when only
    the write failed, isNew still tells an absent or FIXED row (true) from
    an OPEN one (false), so isNew = true can come with an error. *)
Theorem Upsert_errors (qf ef : Fault) (now : Time) (v : VulnerabilityRecord) (db : Table) :
  let res := UpsertVulnerability qf ef now v db in
  (res.1.2 = None ↔ qf = None ∧ ef = None) ∧
  (res.1.2 ≠ None → res.2 = db) ∧
  (qf ≠ None → res.1 = (false, qf)) ∧
  (qf = None →
   res.1 = (match db !! ID v with
            | None => true
            | Some r => bool_decide (state r = StateFixed)
            end, ef)).
Proof.
  cbv zeta. split_and!.
  - unfold UpsertVulnerability. destruct qf as [e|]; simpl.
    { split; [done|]. by intros [? _]. }
    destruct (state <$> db !! ID v) as [st|]; [destruct (decide _)|];
      destruct ef; simpl; split; try done; by intros [_ ?].
  - apply UpsertVulnerability_fault.
  - unfold UpsertVulnerability. by destruct qf.
  - intros ->. unfold UpsertVulnerability.
    destruct (db !! ID v) as [r|]; simpl.
    + case_bool_decide; destruct (decide (state r = StateFixed)); try done;
        by destruct ef.
    + by destruct ef.
Qed.

#[local] Instance listed_before_total : Total listed_before.
Proof. intros a b. unfold listed_before. lia. Qed.

#[local] Instance listed_before_trans : Transitive listed_before.
Proof. intros a b c. unfold listed_before. lia. Qed.

Lemma elem_of_select st (db : Table) id r :
  (id, r) ∈ select_where_state st db ↔ db !! id = Some r ∧ state r = st.
Proof.
  unfold select_where_state. rewrite list_elem_of_filter, elem_of_map_to_list. simpl.
  split; intros [? ?]; by split.
Qed.


Lemma elem_of_open_list (db : Table) (v : VulnerabilityRecord) :
  v ∈ (GetOpenVulnerabilities None db).1 ↔
  ∃ r, db !! (ID v) = Some r ∧ state r = StateOpen ∧
       v = {| ID := ID v; CVE := cve r; Workload := workload r;
              Severity := severity r; Image := image r; State := StateOpen;
              FirstSeen := first_seen r; LastSeen := last_seen r;
              FixedAt := fixed_at r |}.
Proof.
  simpl. rewrite merge_sort_Permutation, list_elem_of_fmap. split.
  - intros ([id r] & -> & Hin). apply elem_of_select in Hin as [Hr Hst].
    exists r. simpl. by rewrite <- Hst.
  - intros (r & Hr & Hst & Hv). exists (ID v, r). split.
    + rewrite Hv at 1. unfold scan_row. simpl. by rewrite Hst.
    + by apply elem_of_select.
Qed.


(** X7.  What [UpsertVulnerability] wrote is what
    [GetOpenVulnerabilities] reads: right after a healthy call the list
    holds a record with the id, severity and image given and last_seen at
    the instant of the call; and a record that [MarkFixed] returned is no
    longer in the list. *)
Theorem written_then_listed (now : Time) (v : VulnerabilityRecord) (db : Table) :
  (∃ rec, rec ∈ (GetOpenVulnerabilities None
                   (UpsertVulnerability None None now v db).2).1 ∧
          ID rec = ID v ∧ Severity rec = Severity v ∧ Image rec = Image v ∧
          State rec = StateOpen ∧ LastSeen rec = now) ∧
  (∀ ids rec,
     rec ∈ (MarkFixed None now ids db).1.1 →
     ∀ rec', rec' ∈ (GetOpenVulnerabilities None (MarkFixed None now ids db).2).1 →
             ID rec' ≠ ID rec).
Proof.
  split.
  - pose proof (Upsert_lookup now v db) as Hrow.
    set (row := match db !! ID v with
                | None => _
                | Some r => _
                end) in Hrow.
    exists (scan_row (ID v, row)).
    assert (Hst : state row = StateOpen ∧ severity row = Severity v ∧
                  image row = Image v ∧ last_seen row = now).
    { unfold row. destruct (db !! ID v) as [r|]; [|done].
      destruct (decide (state r = StateFixed)); simpl; [done|].
      split_and!; try done. by destruct (state r). }
    destruct Hst as (Hs & Hsev & Him & Hls). split.
    + apply elem_of_open_list. exists row. simpl.
      split_and!; [done..|]. unfold scan_row. simpl. by rewrite Hs.
    + by simpl.
  - intros ids rec Hrec rec' Hrec' Heq.
    rewrite MarkFixed_returned in Hrec.
    apply list_elem_of_fmap in Hrec as ([id r] & -> & Hin).
    apply elem_of_returning in Hin as [Hr Hc]. simpl in *.
    apply elem_of_open_list in Hrec' as (r' & Hr' & Hopen & _).
    rewrite Heq, MarkFixed_lookup, Hr in Hr'. simpl in Hr'. rewrite Hc in Hr'.
    injection Hr' as <-. done.
Qed.

Lemma length_filter_split {A} (P Q : A → Prop) `{!∀ x, Decision (P x)}
    `{!∀ x, Decision (Q x)} (l : list A) :
  (∀ x, P x ↔ ¬ Q x) →
  length (filter P l) + length (filter Q l) = length l.
Proof.
  intros HPQ. induction l as [|x l IH]; [done|].
  rewrite !filter_cons. specialize (HPQ x).
  destruct (decide (P x)), (decide (Q x)); simpl; try lia; tauto.
Qed.



Lemma counts_total (db : Table) :
  (count_where_state StateOpen db + count_where_state StateFixed db
   = Z.of_nat (size db))%Z.
Proof.
  unfold count_where_state, select_where_state.
  rewrite <- Nat2Z.inj_add, <- length_map_to_list. f_equal.
  apply length_filter_split. intros [id r]. simpl. by destruct (state r).
Qed.


(** The rows of a table whose every row is the image of the old one. *)
Lemma map_to_list_pointwise (g : string → Row → Row) (db db' : Table) :
  (∀ id, db' !! id = g id <$> db !! id) →
  map_to_list db' ≡ₚ (λ idr, (idr.1, g idr.1 idr.2)) <$> map_to_list db.
Proof.
  intros Hg. apply NoDup_Permutation.
  - apply NoDup_map_to_list.
  - apply (NoDup_fmap_1 fst). rewrite <- list_fmap_compose.
    rewrite (list_fmap_ext _ fst (map_to_list db)) by done.
    apply NoDup_fst_map_to_list.
  - intros [id r]. rewrite elem_of_map_to_list, Hg, list_elem_of_fmap. split.
    + destruct (db !! id) as [r0|] eqn:Hr; simpl; [|done]. intros [= <-].
      exists (id, r0). split; [done|]. by apply elem_of_map_to_list.
    + intros ([i q] & [= -> ->] & Hin). apply elem_of_map_to_list in Hin.
      simpl. by rewrite Hin.
Qed.

Lemma count_after_fix now (cond : string * Row → bool) (l : list (string * Row)) :
  (∀ idr, cond idr = true → state idr.2 = StateOpen) →
  length (filter (λ idr, state idr.2 = StateOpen)
            ((λ idr, (idr.1, if cond idr then set_fixed now idr.2 else idr.2)) <$> l))
    + length (filter (λ idr, cond idr = true) l)
    = length (filter (λ idr, state idr.2 = StateOpen) l) ∧
  length (filter (λ idr, state idr.2 = StateFixed)
            ((λ idr, (idr.1, if cond idr then set_fixed now idr.2 else idr.2)) <$> l))
    = length (filter (λ idr, state idr.2 = StateFixed) l)
      + length (filter (λ idr, cond idr = true) l).
Proof.
  intros Hopen. induction l as [|x l [IH1 IH2]]; [done|].
  csimpl. rewrite !filter_cons. simpl.
  specialize (Hopen x).
  destruct (cond x) eqn:Hc; simpl.
  - rewrite (Hopen eq_refl). simpl. lia.
  - destruct (decide (state x.2 = StateOpen)), (decide (state x.2 = StateFixed));
      simpl; lia.
Qed.

(** X9.  [MarkFixed] moves rows from the open to the fixed count of
    [GetStats]: afterwards TotalOpen is smaller and TotalFixed larger by
    exactly the number of records [MarkFixed] returned. *)
Theorem MarkFixed_moves_counts (now : Time) (ids : list string) (db : Table)
    (before after : Stats) :
  let res := MarkFixed None now ids db in
  (GetStats None None None db).1 = Some before →
  (GetStats None None None res.2).1 = Some after →
  (TotalOpen after = TotalOpen before - Z.of_nat (length res.1.1))%Z ∧
  (TotalFixed after = TotalFixed before + Z.of_nat (length res.1.1))%Z.
Proof.
  cbv zeta. simpl. intros [= <-] [= <-]. simpl.
  unfold count_where_state, select_where_state.
  set (cond := λ idr : string * Row, is_open idr.2 && not_all idr.1 ids).
  rewrite !(map_to_list_pointwise
              (λ id r, if is_open r && not_all id ids then set_fixed now r else r)
              db (MarkFixed None now ids db).2) by apply MarkFixed_lookup.
  rewrite MarkFixed_returned, length_fmap. unfold returning.
  destruct (count_after_fix now cond (map_to_list db)) as [H1 H2].
  { intros idr [Ho _]%andb_true_iff. by apply is_open_spec. }
  unfold cond in H1, H2. cbv beta in H1, H2. split; lia.
Qed.

Lemma fmap_at_absent (set : Row → Row) (k : string) (l : list (string * Row)) :
  k ∉ l.*1 →
  (λ idr : string * Row, (idr.1, if decide (k = idr.1) then set idr.2 else idr.2)) <$> l = l.
Proof.
  induction l as [|[i q] l IH]; [done|]. csimpl.
  rewrite not_elem_of_cons. intros [Hne Hnot]. rewrite (IH Hnot).
  by rewrite decide_False.
Qed.

Lemma count_open_at (set : Row → Row) (k : string) (r : Row) (l : list (string * Row)) :
  NoDup (l.*1) → (k, r) ∈ l →
  length (filter (λ idr, state idr.2 = StateOpen)
            ((λ idr : string * Row,
                (idr.1, if decide (k = idr.1) then set idr.2 else idr.2)) <$> l))
    + (if decide (state r = StateOpen) then 1 else 0)
  = length (filter (λ idr, state idr.2 = StateOpen) l)
    + (if decide (state (set r) = StateOpen) then 1 else 0).
Proof.
  induction l as [|[i q] l IH]; csimpl.
  - intros _ Hin. by apply elem_of_nil in Hin.
  - rewrite NoDup_cons, elem_of_cons. intros [Hi Hnd] [Heq|Hin].
    + injection Heq as <- <-. rewrite (fmap_at_absent set k l Hi).
      destruct (decide (k = k)) as [_|?]; [|done].
      rewrite !filter_cons. simpl.
      destruct (decide (state r = StateOpen)), (decide (state (set r) = StateOpen));
        simpl; lia.
    + assert (k ≠ i).
      { intros ->. apply Hi. apply list_elem_of_fmap. by exists (i, r). }
      destruct (decide (k = i)) as [?|_]; [done|].
      rewrite !filter_cons. simpl.
      specialize (IH Hnd Hin).
      destruct (decide (state q = StateOpen)); simpl; lia.
Qed.

Lemma Upsert_count_open (now : Time) (v : VulnerabilityRecord) (db : Table) :
  let res := UpsertVulnerability None None now v db in
  (count_where_state StateOpen res.2 =
   count_where_state StateOpen db + (if res.1.1 then 1 else 0))%Z ∧
  size res.2 = size db + match db !! ID v with Some _ => 0 | None => 1 end.
Proof.
  cbv zeta. unfold UpsertVulnerability, count_where_state, select_where_state.
  destruct (db !! ID v) as [r|] eqn:Hv; simpl.
  - assert (Hpt : ∀ set,
      map_to_list (update_where_id set (ID v) db) ≡ₚ
      (λ idr : string * Row,
         (idr.1, if decide (ID v = idr.1) then set idr.2 else idr.2))
        <$> map_to_list db).
    { intros set.
      pose proof (map_to_list_pointwise
                    (λ id q, if decide (ID v = id) then set q else q) db
                    (update_where_id set (ID v) db)) as Hp.
      apply Hp. intros id. rewrite lookup_update_where_id.
      destruct (decide (ID v = id)); [done|]. by destruct (db !! id). }
    assert (Hin : (ID v, r) ∈ map_to_list db) by (by apply elem_of_map_to_list).
    assert (Hnd : NoDup ((map_to_list db).*1)) by apply NoDup_fst_map_to_list.
    destruct (decide (state r = StateFixed)) as [Hst|Hst]; simpl;
      rewrite <- !length_map_to_list, !Hpt, length_fmap; (split; [|lia]).
    + pose proof (count_open_at (set_reopened v now) (ID v) r _ Hnd Hin) as Hc.
      simpl in Hc. rewrite decide_False in Hc by (by rewrite Hst). lia.
    + pose proof (count_open_at (set_seen v now) (ID v) r _ Hnd Hin) as Hc.
      simpl in Hc. destruct (state r); [|done]. simpl in Hc. lia.
  - unfold insert_new. split.
    + rewrite map_to_list_insert by done. rewrite filter_cons. simpl. lia.
    + rewrite map_size_insert_None by done. lia.
Qed.

(** X10.  [UpsertVulnerability] and the counts of [GetStats]: TotalOpen
    grows by one exactly when the call returns isNew = true and is
    unchanged otherwise, and TotalOpen + TotalFixed grows by one exactly
    when no row had the id. *)
Theorem Upsert_counts (now : Time) (v : VulnerabilityRecord) (db : Table)
    (before after : Stats) :
  let res := UpsertVulnerability None None now v db in
  (GetStats None None None db).1 = Some before →
  (GetStats None None None res.2).1 = Some after →
  (TotalOpen after = TotalOpen before + (if res.1.1 then 1 else 0))%Z ∧
  (TotalOpen after + TotalFixed after =
   TotalOpen before + TotalFixed before +
   match db !! ID v with Some _ => 0 | None => 1 end)%Z.
Proof.
  cbv zeta. intros Hb Ha.
  destruct (Upsert_count_open now v db) as [Hopen Hsize].
  pose proof (counts_total db) as Tb.
  pose proof (counts_total (UpsertVulnerability None None now v db).2) as Ta.
  set (db' := (UpsertVulnerability None None now v db).2) in *.
  unfold GetStats in Hb, Ha. cbn [fst] in Hb, Ha.
  injection Hb as <-. injection Ha as <-. cbn [TotalOpen TotalFixed].
  split; [done|]. destruct (db !! ID v); lia.
Qed.

(** X1 on the sample record, upserted twice into the empty table. *)
Lemma Upsert_again_witness :
  (UpsertVulnerability None None 30%Z (sample "f1" "CVE-1") one_open).1 = (false, None).
Proof.
  exact (proj1 (Upsert_again 10%Z 30%Z (sample "f1" "CVE-1") (sample "f1" "CVE-1")
                  ∅ eq_refl)).
Defined.

(** X2 on the sample row through a fix and a reopening. *)
Lemma rows_persist_witness :
  ∃ r', history [DoMarkFixed None 20%Z []; DoUpsert None None 30%Z (sample "f1" "CVE-1")]
                one_open !! "f1" = Some r' ∧
        cve r' = "CVE-1" ∧ workload r' = "ns/deploy/a" ∧ first_seen r' = 10%Z.
Proof.
  exact (rows_persist
           [DoMarkFixed None 20%Z []; DoUpsert None None 30%Z (sample "f1" "CVE-1")]
           one_open "f1" _ lookup_one_open).
Defined.

(** X4 on the sample row. *)
Lemma fixed_then_reopened_witness :
  (UpsertVulnerability None None 30%Z (sample "f1" "CVE-1") one_fixed).1 = (true, None).
Proof.
  assert (Hnot : ID (sample "f1" "CVE-1") ∉ @nil string) by apply not_elem_of_nil.
  destruct (fixed_then_reopened 20%Z 30%Z [] (sample "f1" "CVE-1") one_open _
              lookup_one_open eq_refl Hnot) as (_ & H & _).
  exact H.
Defined.

(** X10 on the sample record and the empty table. *)
Lemma Upsert_counts_witness :
  ∃ before after,
    (GetStats None None None ∅).1 = Some before ∧
    (GetStats None None None one_open).1 = Some after ∧
    (TotalOpen after = TotalOpen before + 1)%Z.
Proof.
  eexists _, _. split; [reflexivity|]. split; [reflexivity|].
  exact (proj1 (Upsert_counts 10%Z (sample "f1" "CVE-1") ∅ _ _ eq_refl eq_refl)).
Defined.

(** X9 on the sample table, fixed with no current ids. *)
Lemma MarkFixed_moves_counts_witness :
  ∃ before after,
    (GetStats None None None one_open).1 = Some before ∧
    (GetStats None None None one_fixed).1 = Some after ∧
    (TotalOpen after =
     TotalOpen before - Z.of_nat (length (MarkFixed None 20%Z [] one_open).1.1))%Z.
Proof.
  eexists _, _. split; [reflexivity|]. split; [reflexivity|].
  exact (proj1 (MarkFixed_moves_counts 20%Z [] one_open _ _ eq_refl eq_refl)).
Defined.

End StoreLaws.

(** ** Laws of the notifier *)
Module NotifierLaws.
Import Notifier NotifierFacts.

Lemma count_of_insert (counts : gmap string Z) (k s : string) (n : Z) :
  count_of (<[k := n]> counts) s = if decide (k = s) then n else count_of counts s.
Proof. unfold count_of. rewrite lookup_insert. by destruct (decide (k = s)). Qed.

Lemma count_foldl (events : list VulnerabilityEvent) (m : gmap string Z) (s : string) :
  foldl (λ counts e, <[Severity e := (default 0 (counts !! Severity e) + 1)%Z]> counts)
        m events !! s =
  match m !! s, length (filter (λ e, Severity e = s) events) with
  | None, 0 => None
  | None, n => Some (Z.of_nat n)
  | Some c, n => Some (c + Z.of_nat n)%Z
  end.
Proof.
  revert m. induction events as [|e events IH]; intros m; simpl.
  - destruct (m !! s); [f_equal; lia | done].
  - rewrite IH, filter_cons, lookup_insert.
    destruct (decide (Severity e = s)) as [->|Hne]; simpl.
    + destruct (m !! s) as [c|]; simpl; f_equal; lia.
    + by destruct (m !! s).
Qed.

(** X11.  [countBySeverity] maps a severity to the number of events that
    have exactly this severity string, and has no entry (so reads as zero)
    for a severity no event has. *)
Theorem countBySeverity_spec (events : list VulnerabilityEvent) (s : string) :
  let n := length (filter (λ e, Severity e = s) events) in
  countBySeverity events !! s = (if decide (n = 0) then None else Some (Z.of_nat n)) ∧
  count_of (countBySeverity events) s = Z.of_nat n.
Proof.
  cbv zeta. unfold count_of, countBySeverity. rewrite count_foldl, lookup_empty.
  destruct (length _); simpl; [done|]. split; [done|lia].
Qed.

Lemma count_of_countBySeverity (events : list VulnerabilityEvent) (s : string) :
  count_of (countBySeverity events) s =
  Z.of_nat (length (filter (λ e, Severity e = s) events)).
Proof.
  unfold count_of, countBySeverity. rewrite count_foldl, lookup_empty.
  by destruct (length _).
Qed.

Lemma group_foldl (events : list VulnerabilityEvent)
    (m : gmap string (list VulnerabilityEvent)) (wl : string) :
  foldl (λ grouped e, <[Workload e := default [] (grouped !! Workload e) ++ [e]]> grouped)
        m events !! wl =
  match m !! wl, filter (λ e, Workload e = wl) events with
  | None, [] => None
  | None, g => Some g
  | Some g0, g => Some (g0 ++ g)
  end.
Proof.
  revert m. induction events as [|e events IH]; intros m; simpl.
  - destruct (m !! wl); [by rewrite app_nil_r | done].
  - rewrite IH, filter_cons, lookup_insert.
    destruct (decide (Workload e = wl)) as [->|Hne]; simpl.
    + destruct (m !! wl) as [g0|]; simpl; [by rewrite <- (assoc_L (++))|done].
    + by destruct (m !! wl).
Qed.

(** X12.  [groupByWorkload] partitions the events by workload: the group
    of a workload is the list of the events with that workload, in their
    order, and a workload no event has gets no group (no group is
    empty). *)
Theorem groupByWorkload_spec (events : list VulnerabilityEvent) (wl : string) :
  let g := filter (λ e, Workload e = wl) events in
  groupByWorkload events !! wl = (if decide (g = []) then None else Some g).
Proof.
  cbv zeta. unfold groupByWorkload. rewrite group_foldl, lookup_empty.
  by destruct (filter _ events).
Qed.

Lemma count_pos (events : list VulnerabilityEvent) (s : string) :
  (0 <? count_of (countBySeverity events) s)%Z = true ↔
  Exists (λ e, Severity e = s) events.
Proof.
  rewrite count_of_countBySeverity, Z.ltb_lt, Exists_exists.
  split.
  - destruct (filter (λ e, Severity e = s) events) as [|e l] eqn:Hf; simpl; [lia|].
    intros _. exists e.
    assert (He : e ∈ filter (λ e, Severity e = s) events)
      by (rewrite Hf; apply list_elem_of_here).
    apply list_elem_of_filter in He as [? ?]. by split.
  - intros (e & Hin & He).
    assert (Hf : e ∈ filter (λ e, Severity e = s) events) by (by apply list_elem_of_filter).
    destruct (filter (λ e, Severity e = s) events); simpl; [|lia].
    by apply elem_of_nil in Hf.
Qed.

Lemma count_pos_b (events : list VulnerabilityEvent) (s : string) :
  (0 <? count_of (countBySeverity events) s)%Z =
  bool_decide (Exists (λ e, Severity e = s) events).
Proof.
  destruct (0 <? count_of (countBySeverity events) s)%Z eqn:Hc; symmetry.
  - apply bool_decide_eq_true. by apply count_pos.
  - apply bool_decide_eq_false. intros HE. apply count_pos in HE. congruence.
Qed.

(** X13.  The color of the summary [sendSlackSummary] posts is that of the
    worst severity present, by exact name: red when some event is
    CRITICAL, else orange when some is HIGH, else yellow when some is
    MEDIUM, else green - so green also for an empty list and for events
    that are all LOW or of another severity string. *)
Theorem summaryColor_spec (events : list VulnerabilityEvent) :
  summaryColor events =
  if decide (Exists (λ e, Severity e = "CRITICAL") events) then "#dc3545"
  else if decide (Exists (λ e, Severity e = "HIGH") events) then "#fd7e14"
  else if decide (Exists (λ e, Severity e = "MEDIUM") events) then "#ffc107"
  else "#36a64f".
Proof.
  unfold summaryColor. cbv zeta. rewrite !count_pos_b.
  destruct (decide (Exists (λ e, Severity e = "CRITICAL") events));
    [by rewrite bool_decide_eq_true_2 | rewrite bool_decide_eq_false_2 by done].
  destruct (decide (Exists (λ e, Severity e = "HIGH") events));
    [by rewrite bool_decide_eq_true_2 | rewrite bool_decide_eq_false_2 by done].
  destruct (decide (Exists (λ e, Severity e = "MEDIUM") events));
    [by rewrite bool_decide_eq_true_2 | by rewrite bool_decide_eq_false_2].
Qed.

Lemma severities_partition (events : list VulnerabilityEvent) :
  length (filter (λ e, Severity e = "CRITICAL") events) +
  length (filter (λ e, Severity e = "HIGH") events) +
  length (filter (λ e, Severity e = "MEDIUM") events) +
  length (filter (λ e, Severity e = "LOW") events) +
  length (filter (λ e, Severity e ∉ ["CRITICAL"; "HIGH"; "MEDIUM"; "LOW"]) events)
  = length events.
Proof.
  induction events as [|e events IH]; [done|].
  rewrite !filter_cons.
  destruct (decide (Severity e ∉ ["CRITICAL"; "HIGH"; "MEDIUM"; "LOW"])) as [Hn|Hn].
  - rewrite !not_elem_of_cons in Hn. destruct Hn as (? & ? & ? & ? & _).
    rewrite !decide_False by done. simpl. lia.
  - apply dec_stable in Hn. rewrite !elem_of_cons in Hn.
    destruct Hn as [Hs|[Hs|[Hs|[Hs|Hs]]]]; [..|by apply elem_of_nil in Hs];
      rewrite Hs; simpl; lia.
Qed.

(** X14.  The severity breakdown of the summary [sendSlackSummary] posts:
    a field is shown only with a count above zero, the fields come in the
    order Critical, High, Medium, Low, and their counts add up to the
    number of events whose severity is exactly one of the four names; the
    events of any other severity string are part of the announced total
    but of no field. *)
Theorem summaryFields_spec (events : list VulnerabilityEvent) :
  (∀ title n, (title, n) ∈ summaryFields events → (0 < n)%Z) ∧
  (summaryFields events).*1 `sublist_of` ["Critical"; "High"; "Medium"; "Low"] ∧
  (foldr Z.add 0 ((summaryFields events).*2) +
   Z.of_nat (length (filter (λ e, Severity e ∉ ["CRITICAL"; "HIGH"; "MEDIUM"; "LOW"])
                       events))
   = Z.of_nat (length events))%Z.
Proof.
  unfold summaryFields. cbv zeta. rewrite !count_of_countBySeverity.
  pose proof (severities_partition events) as Hsum.
  destruct (Z.ltb_spec 0 (Z.of_nat (length (filter (λ e, Severity e = "CRITICAL") events))));
  destruct (Z.ltb_spec 0 (Z.of_nat (length (filter (λ e, Severity e = "HIGH") events))));
  destruct (Z.ltb_spec 0 (Z.of_nat (length (filter (λ e, Severity e = "MEDIUM") events))));
  destruct (Z.ltb_spec 0 (Z.of_nat (length (filter (λ e, Severity e = "LOW") events))));
  (split_and!;
   [ intros title n Hin; simpl in Hin;
     repeat (apply elem_of_cons in Hin as [[= _ ->]|Hin]; [lia|]);
     by apply elem_of_nil in Hin
   | simpl; repeat first [ apply sublist_nil_l | apply sublist_skip
                         | apply sublist_cons ]
   | simpl; lia ]).
Qed.





(** [TrimSuffix_slash] on a string with one more slash at its end. *)
Lemma TrimSuffix_slash_app (s : string) :
  TrimSuffix_slash (String.append s "/") = s.
Proof.
  induction s as [|c s IH]; [done|].
  simpl. rewrite IH. destruct (String.append s "/") eqn:Hs; [|done].
  by destruct s.
Qed.

Lemma TrimSuffix_slash_cases (s : string) :
  TrimSuffix_slash s = s ∨ s = String.append (TrimSuffix_slash s) "/".
Proof.
  induction s as [|c s IH]; [by left|].
  destruct s as [|c' s'].
  - simpl. destruct (Ascii.eqb_spec c (Ascii.ascii_of_nat 47)) as [->|]; [by right|by left].
  - change (TrimSuffix_slash (String c (String c' s')))
      with (String c (TrimSuffix_slash (String c' s'))).
    destruct IH as [IH|IH]; [left; by rewrite IH|right].
    change (String c (String c' s') =
            String c (String.append (TrimSuffix_slash (String c' s')) "/")).
    f_equal. exact IH.
Qed.

Section WithEnvironment.

Variable unicodeToUpper : string → string.

Local Abbreviation ToUpper := (Notifier.ToUpper unicodeToUpper).
Local Abbreviation severityLevel := (Notifier.severityLevel unicodeToUpper).
Local Abbreviation filterBySeverity := (Notifier.filterBySeverity unicodeToUpper).

Lemma severityLevel_range (s : string) : (1 ≤ severityLevel s ≤ 5)%Z.
Proof.
  unfold Notifier.severityLevel. cbv zeta.
  repeat (destruct (String.eqb _ _); [lia|]). lia.
Qed.


(** X16.  The rank the notifier gives a severity is never worse than the
    rank the ORDER BY of [GetOpenVulnerabilities] gives it, and the two
    agree on every string the ORDER BY knows (rank 1 to 4). *)
Theorem severityLevel_le_severity_case (s : string) :
  (severityLevel s ≤ DB.severity_case s)%Z ∧
  (DB.severity_case s ≠ 5%Z → severityLevel s = DB.severity_case s).
Proof.
  unfold DB.severity_case.
  destruct (String.eqb_spec s "CRITICAL") as [->|_]; [split; [|intros _]; by vm_compute|].
  destruct (String.eqb_spec s "HIGH") as [->|_]; [split; [|intros _]; by vm_compute|].
  destruct (String.eqb_spec s "MEDIUM") as [->|_]; [split; [|intros _]; by vm_compute|].
  destruct (String.eqb_spec s "LOW") as [->|_]; [split; [|intros _]; by vm_compute|].
  split; [apply severityLevel_range | done].
Qed.

(** X17.  Lowering the bar only adds events: when the minimum of [c1]
    ranks at most that of [c2], what [filterBySeverity] keeps under [c1] is
    a sublist of what it keeps under [c2], and filtering under [c2] first
    changes nothing. *)
Theorem filterBySeverity_monotone (c1 c2 : Config) (events : list VulnerabilityEvent) :
  (severityLevel (MinSeverity c1) ≤ severityLevel (MinSeverity c2))%Z →
  filterBySeverity c1 events `sublist_of` filterBySeverity c2 events ∧
  filterBySeverity c1 (filterBySeverity c2 events) = filterBySeverity c1 events.
Proof.
  intros Hle.
  assert (Heq : filterBySeverity c1 (filterBySeverity c2 events) =
                filterBySeverity c1 events).
  { unfold Notifier.filterBySeverity. cbv zeta. rewrite list_filter_filter.
    apply list_filter_iff. intros e. lia. }
  split; [|done]. rewrite <- Heq. unfold Notifier.filterBySeverity at 1. cbv zeta.
  apply sublist_filter.
Qed.

(** X18.  A minimum severity that is none of the four names (rank 5)
    switches the filter off: [filterBySeverity] keeps every event. *)
Theorem unknown_minimum_keeps_all (config : Config) (events : list VulnerabilityEvent) :
  severityLevel (MinSeverity config) = 5%Z →
  filterBySeverity config events = events.
Proof.
  intros Hmin. unfold Notifier.filterBySeverity. cbv zeta. rewrite Hmin.
  induction events as [|e events IH]; [done|].
  rewrite filter_cons, IH. pose proof (severityLevel_range (Severity e)).
  by rewrite decide_True by lia.
Qed.

End WithEnvironment.

(** X19.  The remote-sync URL tolerates one trailing slash on the
    endpoint: when the endpoint ends in a slash exactly that one slash is
    dropped before the path is appended, and an endpoint that does not end
    in a slash is used as it is. *)
Theorem saasURL_trailing_slash (c : Config) :
  (∀ base, SaasEndpoint c = String.append base "/" →
     saasURL c = String.append base "/api/v1/events") ∧
  ((∀ base, SaasEndpoint c ≠ String.append base "/") →
     saasURL c = String.append (SaasEndpoint c) "/api/v1/events").
Proof.
  unfold saasURL. split.
  - intros base ->. by rewrite TrimSuffix_slash_app.
  - intros Hno. destruct (TrimSuffix_slash_cases (SaasEndpoint c)) as [->|H]; [done|].
    by destruct (Hno _ H).
Qed.

Section WithNetwork.

Variable unicodeToUpper : string → string.
Variable Do : nat → Request → Response.
Variable config : Config.

Local Abbreviation severityLevel := (Notifier.severityLevel unicodeToUpper).
Local Abbreviation filterBySeverity := (Notifier.filterBySeverity unicodeToUpper config).
Local Abbreviation NotifyInitialized := (Notifier.NotifyInitialized Do config).
Local Abbreviation Notify := (Notifier.Notify unicodeToUpper Do config).

Lemma posted_app (w w' : World) (q : list Request) :
  posts w' = posts w ++ q → posted w w' = q.
Proof. intros Hq. unfold posted. by rewrite Hq, drop_app_length. Qed.

Lemma channel_full target req debug failure errs w :
  let res := channel target (post Do req debug) failure errs w in
  let q := if decide (target = "") then [] else [req] in
  posts res.2 = posts w ++ q ∧
  length res.1 = length errs + failures Do (length (posts w)) q ∧
  length (logs res.2) = length (logs w) + length q.
Proof.
  cbv zeta. unfold channel. destruct (decide (target = "")) as [Ht|Ht]; simpl.
  - by rewrite app_nil_r, !Nat.add_0_r.
  - unfold mbind, M_bind, post, delivered.
    destruct (Do (length (posts w)) req) as [msg|code]; simpl.
    + by rewrite !length_app.
    + destruct (300 <=? code)%Z; simpl; rewrite !length_app; simpl; split_and!; try done; lia.
Qed.

Lemma pipeline_run t1 t2 t3 r1 r2 r3 d1 d2 d3 f1 f2 f3 w :
  let q := (if decide (t1 = "") then [] else [r1]) ++
           (if decide (t2 = "") then [] else [r2]) ++
           (if decide (t3 = "") then [] else [r3]) in
  ∃ errs w',
    (errs ← channel t1 (post Do r1 d1) f1 [];
     errs ← channel t2 (post Do r2 d2) f2 errs;
     errs ← channel t3 (post Do r3 d3) f3 errs;
     mret (combined errs)) w = (combined errs, w') ∧
    posts w' = posts w ++ q ∧
    length errs = failures Do (length (posts w)) q ∧
    length (logs w') = length (logs w) + length q.
Proof.
  cbv zeta. unfold mbind, M_bind at 1.
  pose proof (channel_full t1 r1 d1 f1 [] w) as (Hp1 & He1 & Hl1).
  destruct (channel t1 (post Do r1 d1) f1 [] w) as [e1 w1].
  unfold M_bind at 1.
  pose proof (channel_full t2 r2 d2 f2 e1 w1) as (Hp2 & He2 & Hl2).
  destruct (channel t2 (post Do r2 d2) f2 e1 w1) as [e2 w2].
  unfold M_bind at 1.
  pose proof (channel_full t3 r3 d3 f3 e2 w2) as (Hp3 & He3 & Hl3).
  destruct (channel t3 (post Do r3 d3) f3 e2 w2) as [e3 w3].
  simpl in *. unfold mret, M_ret.
  exists e3, w3. split; [done|].
  set (q1 := if decide (t1 = "") then [] else [r1]) in *.
  set (q2 := if decide (t2 = "") then [] else [r2]) in *.
  set (q3 := if decide (t3 = "") then [] else [r3]) in *.
  split_and!.
  - rewrite Hp3, Hp2, Hp1. by rewrite <- !(assoc_L (++)).
  - rewrite He3, He2, He1, Hp2, Hp1, !length_app, !failures_app. simpl. lia.
  - rewrite Hl3, Hl2, Hl1, !length_app. lia.
Qed.

(** What three [channel] blocks and [combined] leave: the enabled
    requests in order, one error for each that failed, one log line for
    each. *)
Lemma pipeline t1 t2 t3 r1 r2 r3 d1 d2 d3 f1 f2 f3 w :
  let res := (errs ← channel t1 (post Do r1 d1) f1 [];
              errs ← channel t2 (post Do r2 d2) f2 errs;
              errs ← channel t3 (post Do r3 d3) f3 errs;
              mret (combined errs)) w in
  let q := (if decide (t1 = "") then [] else [r1]) ++
           (if decide (t2 = "") then [] else [r2]) ++
           (if decide (t3 = "") then [] else [r3]) in
  posted w res.2 = q ∧
  from_option length 0 res.1 = failures Do (length (posts w)) q ∧
  length (logs res.2) = length (logs w) + length q.
Proof.
  cbv zeta.
  destruct (pipeline_run t1 t2 t3 r1 r2 r3 d1 d2 d3 f1 f2 f3 w)
    as (errs & w' & -> & Hp & He & Hl).
  simpl. split_and!; [by apply posted_app| |done].
  rewrite <- He. unfold combined. destruct (decide (0 < length errs)); simpl; lia.
Qed.

Lemma Notify_quiet events w :
  filterBySeverity events = [] → Notify events w = (None, w).
Proof. intros Hf. unfold Notifier.Notify. cbv zeta. by rewrite Hf. Qed.

Lemma posted_same (w : World) : posted w w = [].
Proof. unfold posted. by rewrite drop_all. Qed.

(** The requests [Notify] posts when the filter keeps something. *)
Lemma Notify_posted events w :
  filterBySeverity events ≠ [] →
  let filtered := filterBySeverity events in
  let res := Notify events w in
  let q :=
    (if decide (SlackWebhook config = "") then []
     else [{| url := SlackWebhook config; authorization := None;
              body := SlackMessage (filterByType filtered "NEW")
                                   (filterByType filtered "FIXED") |}]) ++
    (if decide (GenericWebhook config = "") then []
     else [{| url := GenericWebhook config; authorization := None;
              body := WebhookEvents filtered |}]) ++
    (if decide (SaasEndpoint config = "") then []
     else [{| url := saasURL config;
              authorization := if decide (SaasApiKey config = "") then None
                               else Some (String.append "Bearer " (SaasApiKey config));
              body := SaasEvents (ClusterName config) filtered |}]) in
  posted w res.2 = q ∧
  from_option length 0 res.1 = failures Do (length (posts w)) q ∧
  length (logs res.2) = length (logs w) + length q.
Proof.
  intros Hne. cbv zeta. unfold Notifier.Notify. cbv zeta.
  destruct (decide (length (filterBySeverity events) = 0)) as [Hz|_].
  { by apply nil_length_inv in Hz. }
  unfold sendSlack, sendWebhook, sendSaas, postJSON, postJSONWithAuth.
  apply pipeline.
Qed.

(** The requests [NotifyInitialized] posts. *)
Lemma NotifyInitialized_posted events w :
  let res := NotifyInitialized events w in
  let q :=
    (if decide (SlackWebhook config = "") then []
     else [{| url := SlackWebhook config; authorization := None;
              body := SlackSummary (length events) (countBySeverity events) |}]) ++
    (if decide (GenericWebhook config = "") then []
     else [{| url := GenericWebhook config; authorization := None;
              body := WebhookSummary (length events) (countBySeverity events) |}]) ++
    (if decide (SaasEndpoint config = "") then []
     else [{| url := saasURL config;
              authorization := if decide (SaasApiKey config = "") then None
                               else Some (String.append "Bearer " (SaasApiKey config));
              body := SaasSummary (ClusterName config) (length events)
                                  (countBySeverity events) |}]) in
  posted w res.2 = q ∧
  from_option length 0 res.1 = failures Do (length (posts w)) q ∧
  length (logs res.2) = length (logs w) + length q.
Proof.
  cbv zeta. unfold Notifier.NotifyInitialized, sendSlackSummary, sendWebhookSummary,
    sendSaasSummary, postJSON, postJSONWithAuth.
  apply pipeline.
Qed.

(** Every request of a three-channel list is one of the three. *)
Lemma elem_of_three {P1 P2 P3 : Prop} (b1 : Decision P1) (b2 : Decision P2)
    (b3 : Decision P3) (r1 r2 r3 req : Request) :
  req ∈ (if b1 then [] else [r1]) ++ (if b2 then [] else [r2]) ++ (if b3 then [] else [r3]) →
  req = r1 ∨ req = r2 ∨ req = r3.
Proof.
  rewrite !elem_of_app. destruct b1, b2, b3;
    rewrite ?elem_of_nil, ?list_elem_of_singleton; tauto.
Qed.

Lemma elem_of_filtered e events :
  e ∈ filterBySeverity events →
  e ∈ events ∧ (severityLevel (Severity e) ≤ severityLevel (MinSeverity config))%Z.
Proof.
  unfold Notifier.filterBySeverity. cbv zeta. rewrite list_elem_of_filter. tauto.
Qed.

(** X20.  [Notify] never sends an event below the minimum severity, nor
    one it was not given: the generic webhook and the remote-sync request
    itemize exactly the filtered list, and the Slack message the filtered
    events of type NEW followed by those of type FIXED. *)
Theorem Notify_sends_only_filtered (events : list VulnerabilityEvent) (w : World)
    (req : Request) :
  req ∈ posted w (Notify events w).2 →
  (∀ e, e ∈ itemized (body req) →
     e ∈ events ∧ (severityLevel (Severity e) ≤ severityLevel (MinSeverity config))%Z) ∧
  (channel_of req ≠ Slack → itemized (body req) = filterBySeverity events) ∧
  (channel_of req = Slack →
     itemized (body req) = filterByType (filterBySeverity events) "NEW" ++
                           filterByType (filterBySeverity events) "FIXED").
Proof.
  destruct (decide (filterBySeverity events = [])) as [Hnil|Hne].
  { rewrite (Notify_quiet events w Hnil). simpl. rewrite posted_same.
    intros Hin. by apply elem_of_nil in Hin. }
  destruct (Notify_posted events w Hne) as (-> & _ & _).
  intros [->| [->| ->]]%elem_of_three; simpl; (split_and!; [|done..]).
  - intros e. unfold filterByType.
    rewrite elem_of_app, !list_elem_of_filter.
    intros [[_ He]|[_ He]]; by apply elem_of_filtered.
  - intros e. apply elem_of_filtered.
  - intros e. apply elem_of_filtered.
Qed.

(** X21.  Each request goes to the URL of its own channel, and the API
    key travels only to the remote-sync endpoint: Slack and generic
    webhook requests never carry an Authorization header, a remote-sync
    request carries "Bearer <key>" exactly when a key is configured. *)
Theorem requests_routed (events : list VulnerabilityEvent) (w : World) (req : Request) :
  req ∈ posted w (Notify events w).2 ∨ req ∈ posted w (NotifyInitialized events w).2 →
  url req = match channel_of req with
            | Slack => SlackWebhook config
            | Webhook => GenericWebhook config
            | Saas => saasURL config
            end ∧
  authorization req = match channel_of req with
                      | Saas => if decide (SaasApiKey config = "") then None
                                else Some (String.append "Bearer " (SaasApiKey config))
                      | Slack | Webhook => None
                      end.
Proof.
  intros [Hin|Hin].
  - destruct (decide (filterBySeverity events = [])) as [Hnil|Hne].
    { rewrite (Notify_quiet events w Hnil) in Hin. simpl in Hin.
      rewrite posted_same in Hin. by apply elem_of_nil in Hin. }
    destruct (Notify_posted events w Hne) as (Hq & _ & _). rewrite Hq in Hin.
    by apply elem_of_three in Hin as [->| [->| ->]].
  - destruct (NotifyInitialized_posted events w) as (Hq & _ & _). rewrite Hq in Hin.
    by apply elem_of_three in Hin as [->| [->| ->]].
Qed.

(** X22.  [Notify] and [NotifyInitialized] account for every attempt: the
    error they return lists one error for each request that was not
    delivered (none: nil), and each request leaves exactly one log entry,
    a failure or a debug line. *)
Theorem attempts_accounted (events : list VulnerabilityEvent) (w : World) :
  let accounted := λ res : option (list error) * World,
    from_option length 0 res.1 = failures Do (length (posts w)) (posted w res.2) ∧
    length (logs res.2) = length (logs w) + length (posted w res.2) in
  accounted (Notify events w) ∧ accounted (NotifyInitialized events w).
Proof.
  cbv zeta. split.
  - destruct (decide (filterBySeverity events = [])) as [Hnil|Hne].
    { rewrite (Notify_quiet events w Hnil). simpl. rewrite posted_same. simpl. lia. }
    destruct (Notify_posted events w Hne) as (Hq & He & Hl). by rewrite Hq.
  - destruct (NotifyInitialized_posted events w) as (Hq & He & Hl). by rewrite Hq.
Qed.

(** X23.  [NotifyInitialized] does not filter by severity: every summary
    it posts gives as total the number of all events it was given and, for
    each severity string, the number of events with it, and the configured
    minimum severity changes nothing in what the call does. *)
Theorem NotifyInitialized_counts_all (events : list VulnerabilityEvent) (w : World) :
  (∀ req, req ∈ posted w (NotifyInitialized events w).2 →
     ∃ counts, summarized (body req) = Some (length events, counts) ∧
               ∀ s, count_of counts s =
                    Z.of_nat (length (filter (λ e, Severity e = s) events))) ∧
  (∀ minSeverity,
     Notifier.NotifyInitialized Do (with_min minSeverity config) events w =
     NotifyInitialized events w).
Proof.
  split; [|done].
  destruct (NotifyInitialized_posted events w) as (-> & _ & _).
  intros req [->| [->| ->]]%elem_of_three; simpl;
    (eexists; split; [done|]); apply count_of_countBySeverity.
Qed.

End WithNetwork.


(** X17 with the minimums CRITICAL and HIGH. *)
Lemma filterBySeverity_monotone_witness :
  filterBySeverity id (slack_only "CRITICAL") [event "e1" "CRITICAL"; event "e2" "HIGH"]
    `sublist_of`
  filterBySeverity id (slack_only "HIGH") [event "e1" "CRITICAL"; event "e2" "HIGH"].
Proof.
  assert (H : (severityLevel id (MinSeverity (slack_only "CRITICAL")) ≤
               severityLevel id (MinSeverity (slack_only "HIGH")))%Z) by (by vm_compute).
  exact (proj1 (filterBySeverity_monotone id (slack_only "CRITICAL") (slack_only "HIGH")
                  [event "e1" "CRITICAL"; event "e2" "HIGH"] H)).
Defined.

(** X18 with a misspelt minimum. *)
Lemma unknown_minimum_keeps_all_witness :
  filterBySeverity id (slack_only "HIHG") [event "e1" "LOW"] = [event "e1" "LOW"].
Proof. apply unknown_minimum_keeps_all. reflexivity. Defined.

(** X20 on a CRITICAL event sent to all three channels. *)
Lemma Notify_sends_only_filtered_witness :
  ∃ req, req ∈ posted quiet (Notify id all_ok (all_channels "HIGH")
                               [event "e1" "CRITICAL"; event "e2" "LOW"] quiet).2 ∧
         channel_of req = Webhook ∧
         itemized (body req) = [event "e1" "CRITICAL"].
Proof.
  exists {| url := "https://hooks.example/generic"; authorization := None;
            body := WebhookEvents [event "e1" "CRITICAL"] |}.
  assert (Hin : {| url := "https://hooks.example/generic"; authorization := None;
                   body := WebhookEvents [event "e1" "CRITICAL"] |}
                ∈ posted quiet (Notify id all_ok (all_channels "HIGH")
                                  [event "e1" "CRITICAL"; event "e2" "LOW"] quiet).2).
  { vm_compute. apply list_elem_of_further, list_elem_of_here. }
  split; [exact Hin|]. split; [reflexivity|].
  destruct (Notify_sends_only_filtered id all_ok (all_channels "HIGH")
              [event "e1" "CRITICAL"; event "e2" "LOW"] quiet _ Hin) as (_ & H & _).
  by apply H.
Defined.

(** X21 on the Slack request of the same call. *)
Lemma requests_routed_witness :
  ∃ req, req ∈ posted quiet (Notify id all_ok (all_channels "HIGH")
                               [event "e1" "CRITICAL"] quiet).2 ∧
         channel_of req = Slack ∧ authorization req = None.
Proof.
  exists {| url := "https://hooks.example/T1"; authorization := None;
            body := SlackMessage [event "e1" "CRITICAL"] [] |}.
  assert (Hin : {| url := "https://hooks.example/T1"; authorization := None;
                   body := SlackMessage [event "e1" "CRITICAL"] [] |}
                ∈ posted quiet (Notify id all_ok (all_channels "HIGH")
                                  [event "e1" "CRITICAL"] quiet).2).
  { vm_compute. apply list_elem_of_here. }
  split; [exact Hin|]. split; [reflexivity|].
  exact (proj2 (requests_routed id all_ok (all_channels "HIGH")
                  [event "e1" "CRITICAL"] quiet _ (or_introl Hin))).
Defined.

End NotifierLaws.

(** ** Laws of the server *)
Module ServerLaws.
Import Server ServerFacts.

Section WithCollaborators.

Variable fingerprint : string → string → string.
Variable Tracking : Type.
Variable GetUnsyncedVulnerabilities :
  DB.Table → Tracking → list DB.VulnerabilityRecord * option error.
Variable MarkSaasSynced : list string → Tracking → option error * Tracking.
Variable notifier : nat → Call → option SaasResult.
Variable config : Config.

Local Abbreviation handleSaasResult := (Server.handleSaasResult Tracking MarkSaasSynced).
Local Abbreviation retrySaasSync :=
  (Server.retrySaasSync Tracking GetUnsyncedVulnerabilities MarkSaasSynced notifier).
Local Abbreviation polled :=
  (Server.polled Tracking GetUnsyncedVulnerabilities MarkSaasSynced notifier config).




(** The calls of [retrySaasSync]: one [SendSaas] with an event for each
    unsynced record, when the query succeeds and finds some. *)
Lemma retrySaasSync_calls (w : World Tracking) :
  calls (retrySaasSync w) =
  calls w ++
  match GetUnsyncedVulnerabilities (table w) (tracking w) with
  | (unsynced, None) =>
      if decide (length unsynced = 0) then []
      else [CallSendSaas (recordToEvent <$> unsynced)]
  | (_, Some _) => []
  end.
Proof.
  unfold Server.retrySaasSync.
  destruct (GetUnsyncedVulnerabilities _ _) as [unsynced [err|]]; simpl.
  { by rewrite app_nil_r. }
  destruct (decide (length unsynced = 0)); simpl; [by rewrite app_nil_r|].
  unfold invoke. by rewrite handleSaasResult_calls.
Qed.

(** X25.  [retrySaasSync] resends exactly what the store reports as
    unsynced: when the query fails or finds nothing the notifier is not
    called and the tracking is untouched; otherwise [SendSaas] is called
    once, with one event per unsynced record in the same order, of type
    FIXED for a FIXED record and NEW for any other; the ids marked as
    synced afterwards are those of the notifier's result. *)
Theorem retrySaasSync_spec (w : World Tracking) :
  let unsynced := (GetUnsyncedVulnerabilities (table w) (tracking w)).1 in
  let err := (GetUnsyncedVulnerabilities (table w) (tracking w)).2 in
  let events := recordToEvent <$> unsynced in
  (err ≠ None ∨ unsynced = [] →
     calls (retrySaasSync w) = calls w ∧ tracking (retrySaasSync w) = tracking w) ∧
  (err = None → unsynced ≠ [] →
     calls (retrySaasSync w) = calls w ++ [CallSendSaas events] ∧
     length events = length unsynced ∧
     (∀ i v, unsynced !! i = Some v →
        ∃ e, events !! i = Some e ∧ Notifier.ID e = DB.ID v ∧
             Notifier.Type_ e =
               (if decide (DB.State v = DB.StateFixed) then "FIXED" else "NEW")) ∧
     tracking (retrySaasSync w) =
       match notifier (length (calls w)) (CallSendSaas events) with
       | Some res =>
           if decide (0 < length (SyncedIDs res))
           then (MarkSaasSynced (SyncedIDs res) (tracking w)).2 else tracking w
       | None => tracking w
       end).
Proof.
  cbv zeta. rewrite retrySaasSync_calls. unfold Server.retrySaasSync.
  destruct (GetUnsyncedVulnerabilities _ _) as [unsynced [err|]]; simpl.
  { split; [|done]. intros _. by rewrite app_nil_r. }
  split.
  - intros [? | ->]; [done|]. simpl. by rewrite app_nil_r.
  - intros _ Hne.
    destruct (decide (length unsynced = 0)) as [Hz|_].
    { by apply nil_length_inv in Hz. }
    split_and!; [done|by rewrite length_fmap| |].
    + intros i v Hv. exists (recordToEvent v). by rewrite list_lookup_fmap, Hv.
    + unfold invoke, Server.handleSaasResult. simpl.
      destruct (notifier (length (calls w)) _) as [res|]; [|done].
      destruct (decide (0 < length (SyncedIDs res))); simpl.
      * destruct (MarkSaasSynced _ _) as [[e|] tr]; simpl; by destruct (Err res).
      * by destruct (Err res).
Qed.

Lemma counts_app (l k : list Call) :
  initialized_calls (l ++ k) = initialized_calls l + initialized_calls k ∧
  notify_calls (l ++ k) = notify_calls l + notify_calls k.
Proof. unfold initialized_calls, notify_calls. by rewrite !filter_app, !length_app. Qed.

(** What one [Server.poll] adds to the calls, after [Poll] has left the
    world [w] with the calls of before. *)
Lemma polled_latch events err (w : World Tracking) (s : State Tracking) :
  ∃ added,
    calls (world (polled events err w s)) = calls w ++ added ∧
    initialized_calls added ≤ (if firstPoll s then 1 else 0) ∧
    (firstPoll s = true → notify_calls added = 0) ∧
    (firstPoll (polled events err w s) = true →
       firstPoll s = true ∧ initialized_calls added = 0) ∧
    (firstPoll s = false → firstPoll (polled events err w s) = false).
Proof.
  assert (Hw1 : ∃ sent,
            calls (if decide (SaasEndpoint config = "") then w else retrySaasSync w)
            = calls w ++ sent ∧ initialized_calls sent = 0 ∧ notify_calls sent = 0).
  { destruct (decide (SaasEndpoint config = "")).
    - exists []. by rewrite app_nil_r.
    - rewrite retrySaasSync_calls. eexists. split; [done|].
      destruct (GetUnsyncedVulnerabilities _ _) as [unsynced [e|]]; [done|].
      by destruct (decide (length unsynced = 0)). }
  destruct Hw1 as (sent & Hsent & Hi & Hn).
  unfold Server.polled. destruct err; simpl.
  { exists []. rewrite app_nil_r.
    split_and!; try done; destruct (firstPoll s); simpl; try done;
      unfold initialized_calls; simpl; lia. }
  destruct (negb (HasNotifications config)); simpl.
  { exists []. rewrite app_nil_r.
    split_and!; try done; destruct (firstPoll s); simpl; try done;
      unfold initialized_calls; simpl; lia. }
  destruct (firstPoll s); simpl; destruct (decide (0 < length events)); simpl;
    unfold invoke; rewrite ?handleSaasResult_calls; simpl; rewrite Hsent.
  - exists (sent ++ [CallNotifyInitialized events]).
    rewrite <- (assoc_L (++)). destruct (counts_app sent [CallNotifyInitialized events])
      as [-> ->]. rewrite Hi, Hn. by split_and!.
  - exists sent. rewrite Hi, Hn. split_and!; try done. lia.
  - exists (sent ++ [CallNotify events]).
    rewrite <- (assoc_L (++)). destruct (counts_app sent [CallNotify events])
      as [-> ->]. rewrite Hi. by split_and!.
  - exists sent. rewrite Hi. by split_and!.
Qed.

Local Abbreviation fine_step :=
  (Server.fine_step fingerprint Tracking GetUnsyncedVulnerabilities MarkSaasSynced
                    notifier config).

Lemma serve_ready_200 (b : bool) : serve b "/readyz" = 200%Z → b = true.
Proof. by destruct b. Qed.

Lemma fine_ready_kept (f f' : Fine Tracking) :
  fine_step f f' → ready (f_server f) = true → ready (f_server f') = true.
Proof.
  intros Hstep Hr. destruct Hstep as [f path|f cy Hl|f Hl|f cy Hl|f Hl]; simpl;
    by rewrite ?poll_ready.
Qed.

(** X26.  Readiness never reverts.  In every run of the daemon, with the
    initial poll and the store of the flag as separate steps, /healthz is
    always answered 200, /readyz is answered 200 or 503, and once /readyz
    has been answered 200 every later answer to it is 200. *)
Theorem readiness_never_reverts (w : World Tracking) (f : Fine Tracking) :
  rtc fine_step (fine_start Tracking w) f →
  (∀ code, ("/healthz", code) ∈ answered f → code = 200%Z) ∧
  (∀ code, ("/readyz", code) ∈ answered f → code = 200%Z ∨ code = 503%Z) ∧
  (∀ pre post code,
     answered f = pre ++ ("/readyz", 200%Z) :: post →
     ("/readyz", code) ∈ post → code = 200%Z).
Proof.
  intros Hrun.
  assert (Hinv : (∀ path code, (path, code) ∈ answered f → ∃ b, code = serve b path) ∧
                 ∀ pre post, answered f = pre ++ ("/readyz", 200%Z) :: post →
                   ready (f_server f) = true ∧
                   ∀ code, ("/readyz", code) ∈ post → code = 200%Z).
  { revert f Hrun. apply rtc_ind_r.
    - split; [intros path code Hin; by apply elem_of_nil in Hin|].
      intros pre post Heq. by destruct pre.
    - intros f f' _ Hstep [Hans Hmono].
      pose proof (fine_ready_kept f f' Hstep) as Hkept.
      destruct Hstep as [f path|f cy Hl|f Hl|f cy Hl|f Hl]; simpl in *;
        try (split; [done|]; intros pre post Heq;
             destruct (Hmono pre post Heq) as [Hr Hpost]; split; [by apply Hkept|done]).
      split.
      + intros p code [Hin|Hin]%elem_of_app; [by apply Hans|].
        apply list_elem_of_singleton in Hin as [= -> ->]. by eexists.
      + intros pre post Heq. symmetry in Heq.
        apply app_snoc_inv in Heq as [(-> & -> & Hev)|(post' & -> & Htr)].
        * injection Hev as <- Hcode. split; [by apply serve_ready_200|].
          intros code Hin. by apply elem_of_nil in Hin.
        * destruct (Hmono pre post' Htr) as [Hr Hpost]. split; [done|].
          intros code [Hin|Hin]%elem_of_app; [by apply Hpost|].
          apply list_elem_of_singleton in Hin as [= <- ->]. by rewrite Hr. }
  destruct Hinv as [Hans Hmono]. split_and!.
  - intros code Hin. by destruct (Hans _ _ Hin) as [[] ->].
  - intros code Hin. destruct (Hans _ _ Hin) as [[] ->]; [by left|by right].
  - intros pre post code Heq. by apply (Hmono pre post Heq).
Qed.

(** The poller modelled from the spec does not call the notifier. *)
Lemma upsertEach_calls clk k cands (w : World Tracking) :
  calls (Server.upsertEach Tracking clk k cands w).2 = calls w.
Proof.
  revert k w. induction cands as [|v cands IH]; intros k w; [done|].
  cbn [Server.upsertEach].
  destruct (DB.UpsertVulnerability None None (clk k) v (table w)) as [[isNew err] tb].
  specialize (IH (S k) (add_op Tracking (OpUpsert (DB.ID v)) (with_table Tracking tb w))).
  destruct (Server.upsertEach _ _ _ _ _) as [events w2]. simpl in *. by rewrite IH.
Qed.

Lemma Poll_calls cy (w : World Tracking) :
  calls (Server.Poll fingerprint Tracking cy w).2 = calls w.
Proof.
  unfold Server.Poll. destruct (fetch cy) as [items|e]; [|done].
  pose proof (upsertEach_calls (clock cy) 0 (candidate fingerprint <$> items) w) as Hc.
  destruct (Server.upsertEach _ _ _ _ _) as [newEvents w1].
  destruct (DB.MarkFixed _ _ _ _) as [[fixed err] tb]. simpl in *. done.
Qed.

End WithCollaborators.

Section AnyPoller.

Variable Tracking : Type.
Variable GetUnsyncedVulnerabilities :
  DB.Table → Tracking → list DB.VulnerabilityRecord * option error.
Variable MarkSaasSynced : list string → Tracking → option error * Tracking.
Variable notifier : nat → Call → option SaasResult.
Variable config : Config.
Variable poller : Cycle → World Tracking →
                  (list VulnerabilityEvent * option error) * World Tracking.

Local Abbreviation pollWith :=
  (Server.pollWith Tracking GetUnsyncedVulnerabilities MarkSaasSynced notifier config poller).
Local Abbreviation cyclesWith :=
  (Server.cyclesWith Tracking GetUnsyncedVulnerabilities MarkSaasSynced notifier config
                     poller).

Lemma latched_pollWith cy (s : State Tracking) :
  (∀ cy w, calls (poller cy w).2 = calls w) →
  latched s → latched (pollWith cy s).
Proof.
  intros Hpoller [Hinit Hnotify]. unfold Server.pollWith.
  pose proof (Hpoller cy (world s)) as Hc.
  destruct (poller cy (world s)) as [[events err] w]. simpl in Hc.
  destruct (polled_latch Tracking GetUnsyncedVulnerabilities MarkSaasSynced notifier
              config events err w s) as (added & Hadd & Hi & Hn & Hstay & Hclear).
  unfold latched. rewrite Hadd, Hc.
  destruct (counts_app (calls (world s)) added) as [-> ->].
  destruct (firstPoll s) eqn:Hs.
  - specialize (Hnotify eq_refl). specialize (Hn eq_refl). split.
    + destruct (firstPoll (Server.polled _ _ _ _ _ _ _ _ _)) eqn:Hs'; [|lia].
      destruct (Hstay eq_refl) as [_ ->]. lia.
    + intros _. lia.
  - rewrite (Hclear eq_refl). split; [lia|done].
Qed.

(** X27.  Over any number of poll cycles, with any poller that does not
    itself call the notifier, the server sends the initialized summary at
    most once, and while the first-poll flag is still set (every cycle so
    far failed or no channel is configured) it has sent neither the
    summary nor an incremental notification. *)
Theorem initialized_at_most_once (cys : list Cycle) (s : State Tracking) :
  (∀ cy w, calls (poller cy w).2 = calls w) →
  firstPoll s = true →
  initialized_calls (calls (world s)) = 0 → notify_calls (calls (world s)) = 0 →
  initialized_calls (calls (world (cyclesWith cys s))) ≤ 1 ∧
  (firstPoll (cyclesWith cys s) = true →
     initialized_calls (calls (world (cyclesWith cys s))) = 0 ∧
     notify_calls (calls (world (cyclesWith cys s))) = 0).
Proof.
  intros Hpoller Hfirst Hi Hn.
  assert (Hl : latched (cyclesWith cys s)).
  { assert (H0 : latched s) by (unfold latched; rewrite Hfirst, Hi; split; [lia|done]).
    clear Hfirst Hi Hn. unfold Server.cyclesWith.
    revert s H0. induction cys as [|cy cys IH]; intros s H0; simpl; [done|].
    apply IH. by apply latched_pollWith. }
  destruct Hl as [Hinit Hnotify]. split.
  - destruct (firstPoll (cyclesWith cys s)); lia.
  - intros Hstill. rewrite Hstill in Hinit. split; [lia|by apply Hnotify].
Qed.

End AnyPoller.

(** X27 on an outage followed by two cycles with findings. *)
Lemma initialized_at_most_once_witness :
  initialized_calls
    (calls (world (cyclesWith unit no_unsynced mark_ok nil_result
                     (Notifier.slack_only "CRITICAL") (Poll join_fingerprint unit)
                     [outage; found "CVE-1"; found "CVE-2"] (New unit fresh)))) ≤ 1.
Proof.
  exact (proj1 (initialized_at_most_once unit no_unsynced mark_ok nil_result
                  (Notifier.slack_only "CRITICAL") (Poll join_fingerprint unit)
                  [outage; found "CVE-1"; found "CVE-2"] (New unit fresh)
                  (Poll_calls join_fingerprint unit) eq_refl eq_refl eq_refl)).
Defined.

(** X26 on a run in which /readyz is asked before the initial poll,
    between the poll and the store of the flag, and after it. *)
Lemma readiness_never_reverts_witness :
  ∃ f, rtc (fine_step join_fingerprint unit no_unsynced mark_ok nil_result
                      (Notifier.slack_only "CRITICAL")) (fine_start unit fresh) f ∧
       answered f = [("/readyz", 503%Z); ("/readyz", 503%Z); ("/readyz", 200%Z)] ∧
       ∀ code, ("/readyz", code) ∈ answered f → code = 200%Z ∨ code = 503%Z.
Proof.
  assert (Hex : ∃ f, rtc (fine_step join_fingerprint unit no_unsynced mark_ok nil_result
                                    (Notifier.slack_only "CRITICAL"))
                         (fine_start unit fresh) f ∧
                     answered f = [("/readyz", 503%Z); ("/readyz", 503%Z);
                                   ("/readyz", 200%Z)]).
  { eexists. split.
    - eapply rtc_l; [apply (Server.fine_request _ _ _ _ _ _ _ "/readyz")|].
      eapply rtc_l; [by apply (Server.fine_initial _ _ _ _ _ _ _ outage)|].
      eapply rtc_l; [apply (Server.fine_request _ _ _ _ _ _ _ "/readyz")|].
      eapply rtc_l; [by apply Server.fine_store|].
      eapply rtc_l; [apply (Server.fine_request _ _ _ _ _ _ _ "/readyz")|].
      apply rtc_refl.
    - reflexivity. }
  destruct Hex as (f & Hrun & Hans). exists f.
  split; [exact Hrun|]. split; [exact Hans|].
  destruct (readiness_never_reverts join_fingerprint unit no_unsynced mark_ok nil_result
              (Notifier.slack_only "CRITICAL") fresh f Hrun) as (_ & H & _).
  exact H.
Defined.

End ServerLaws.
